(** * Case lifecycle flows of dispatch ([src/dispatch/case/flows.py])

    A shallow embedding of the case flows: the status transition
    dispatcher, the resource provisioning flow, the participant flow,
    the escalation of a case to an incident and the deletion flow.

    The flows are effectful Python: they read and write ORM objects,
    call the flows of other packages (ticket, group, storage, document,
    conversation, participant, incident) and plugin instances, log, and
    raise. They are embedded in a state-and-exception monad [M] over a
    [World]:

    - the ORM objects live in a heap indexed by primary key, so that a
      [case] variable is a reference and every attribute access reads the
      object as it is at that moment (the flows of other packages mutate
      the same objects);
    - every call that leaves this file is a [Call]; what it returns, what
      it does to the store and whether it raises is decided by an
      environment [Env], about which nothing is assumed;
    - every call, audit record, log line and commit is appended to a
      [trace], which the environment cannot touch. *)

From stdpp Require Import base gmap list strings functions.

(** ** Enumerations *)

(** [dispatch/enums.py] *)
Module Visibility.
Inductive t := open | restricted.
#[global] Instance visibility_eq_dec : EqDecision t.
Proof. solve_decision. Defined.
End Visibility.

(** [CaseStatus] is imported from [dispatch.case.models]; its four members
    are the ones the dispatcher compares against. *)
Module CaseStatus.
Inductive t := new | triage | escalated | closed.
#[global] Instance case_status_eq_dec : EqDecision t.
Proof. solve_decision. Defined.
End CaseStatus.

Module ParticipantRoleType.
Inductive t := participant | reporter | assignee | oncall.
#[global] Instance participant_role_type_eq_dec : EqDecision t.
Proof. solve_decision. Defined.
End ParticipantRoleType.

Inductive GroupAction := add_member.
Inductive GroupType := tactical.
Inductive StorageAction := add_members.
Inductive IncidentStatus := active.
Inductive DocumentResourceTypes := document_case.

(** The plugin kinds this file asks the registry for. *)
Inductive PluginType :=
  plugin_participant | plugin_conversation | plugin_oncall.

(** ** Objects *)

Definition PrimaryKey := nat.
Definition Timestamp := Z.

Record Project := { project_id : PrimaryKey; project_name : string }.

Record IndividualContact := { individual_email : string }.
Record TeamContact := { team_email : string }.

Record ParticipantRole := {
  role : ParticipantRoleType.t;
  role_active : bool
}.

Record Participant := {
  individual : IndividualContact;
  participant_roles : list ParticipantRole;
  participant_service_id : nat
}.

Record Group := { group_email : string }.
Record Ticket := { ticket_resource : string }.
Record Storage := { storage_resource : string }.
Record Document := { document_resource : string }.
Record Conversation := { channel_id : string; thread_id : string }.
Record Service := { external_id : nat }.
Record Plugin := { plugin_title : string }.

Record IncidentType := {
  incident_type_name : string;
  incident_type_project : Project
}.

Record CaseType := {
  incident_type : option IncidentType;
  oncall_service : option Service;
  case_template_document : option Document
}.

Record CasePriority := { page_assignee : bool }.

Record Incident := {
  incident_name : string;
  incident_project : Project;
  incident_tactical_group : option Group
}.

(** [IncidentCreate], with [reporter] the e-mail wrapped by
    [ParticipantUpdate(individual=IndividualContactRead(email=...))]. *)
Record IncidentCreate := {
  in_title : string;
  in_description : string;
  in_status : IncidentStatus;
  in_incident_type : IncidentType;
  in_incident_priority : CasePriority;
  in_project : Project;
  in_reporter : string
}.

(** A case. Its primary key is its address in the heap. [incidents] holds
    references: an incident is an object of its own, which the incident
    flows keep mutating after it is linked. *)
Record Case := {
  name : string;
  title : string;
  description : string;
  status : CaseStatus.t;
  visibility : Visibility.t;
  triage_at : option Timestamp;
  escalated_at : option Timestamp;
  closed_at : option Timestamp;
  project : Project;
  case_type : CaseType;
  case_priority : CasePriority;
  assignee : option Participant;
  ticket : option Ticket;
  groups : list Group;
  tactical_group : option Group;
  storage : option Storage;
  case_document : option Document;
  conversation : option Conversation;
  incidents : list PrimaryKey
}.

(** [CaseRead], of which the update flow reads the status only. *)
Record CaseRead := { read_status : CaseStatus.t }.

Definition set_triage_at (t : option Timestamp) (c : Case) : Case :=
  {| name := name c; title := title c; description := description c;
     status := status c; visibility := visibility c;
     triage_at := t; escalated_at := escalated_at c; closed_at := closed_at c;
     project := project c; case_type := case_type c;
     case_priority := case_priority c; assignee := assignee c;
     ticket := ticket c; groups := groups c;
     tactical_group := tactical_group c; storage := storage c;
     case_document := case_document c; conversation := conversation c;
     incidents := incidents c |}.

Definition set_escalated_at (t : option Timestamp) (c : Case) : Case :=
  {| name := name c; title := title c; description := description c;
     status := status c; visibility := visibility c;
     triage_at := triage_at c; escalated_at := t; closed_at := closed_at c;
     project := project c; case_type := case_type c;
     case_priority := case_priority c; assignee := assignee c;
     ticket := ticket c; groups := groups c;
     tactical_group := tactical_group c; storage := storage c;
     case_document := case_document c; conversation := conversation c;
     incidents := incidents c |}.

Definition set_closed_at (t : option Timestamp) (c : Case) : Case :=
  {| name := name c; title := title c; description := description c;
     status := status c; visibility := visibility c;
     triage_at := triage_at c; escalated_at := escalated_at c; closed_at := t;
     project := project c; case_type := case_type c;
     case_priority := case_priority c; assignee := assignee c;
     ticket := ticket c; groups := groups c;
     tactical_group := tactical_group c; storage := storage c;
     case_document := case_document c; conversation := conversation c;
     incidents := incidents c |}.

Definition set_status (s : CaseStatus.t) (c : Case) : Case :=
  {| name := name c; title := title c; description := description c;
     status := s; visibility := visibility c;
     triage_at := triage_at c; escalated_at := escalated_at c;
     closed_at := closed_at c;
     project := project c; case_type := case_type c;
     case_priority := case_priority c; assignee := assignee c;
     ticket := ticket c; groups := groups c;
     tactical_group := tactical_group c; storage := storage c;
     case_document := case_document c; conversation := conversation c;
     incidents := incidents c |}.

Definition set_incidents (l : list PrimaryKey) (c : Case) : Case :=
  {| name := name c; title := title c; description := description c;
     status := status c; visibility := visibility c;
     triage_at := triage_at c; escalated_at := escalated_at c;
     closed_at := closed_at c;
     project := project c; case_type := case_type c;
     case_priority := case_priority c; assignee := assignee c;
     ticket := ticket c; groups := groups c;
     tactical_group := tactical_group c; storage := storage c;
     case_document := case_document c; conversation := conversation c;
     incidents := l |}.

(** ** The store *)

(** The session's view of the database and of the plugin configuration.
    [case_rows] are the keys [case_service.get] finds; [case_heap] gives
    the state of each case object, [incident_heap] of each incident
    object. [now] is what [datetime.utcnow()] reads. *)
Record Store := {
  case_rows : gset PrimaryKey;
  case_heap : PrimaryKey -> Case;
  incident_heap : PrimaryKey -> Incident;
  participants : list (PrimaryKey * Participant);
  registry : PrimaryKey -> PluginType -> option Plugin;
  now : Timestamp
}.

Definition with_case_heap (h : PrimaryKey -> Case) (s : Store) : Store :=
  {| case_rows := case_rows s; case_heap := h;
     incident_heap := incident_heap s; participants := participants s;
     registry := registry s; now := now s |}.

(** A variable holding a case: [None] is Python's [None]. *)
Definition CaseRef := option PrimaryKey.

(** ** Exceptions *)

(** An exception: the name of its class, whether the class derives from
    [Exception] ([KeyboardInterrupt], [SystemExit] and the other classes
    that derive from [BaseException] only do not), and its message. *)
Record Exn := {
  exn_type : string;
  exn_is_exception : bool;
  exn_message : string
}.

(** What [None.attr] raises. *)
Definition NoneAttributeError (attr : string) : Exn :=
  {| exn_type := "AttributeError"; exn_is_exception := true;
     exn_message := "'NoneType' object has no attribute '" +:+ attr +:+ "'" |}.

(** What [db_session.add(None)] raises. *)
Definition UnmappedInstanceError : Exn :=
  {| exn_type := "UnmappedInstanceError"; exn_is_exception := true;
     exn_message := "Class 'builtins.NoneType' is not mapped" |}.

(** ** Calls that leave this file *)

Inductive Call : Type -> Type :=
(* plugin instances *)
| plugin_get (class_instance : CaseRef) (project_id : PrimaryKey)
    : Call (list (IndividualContact * option nat) * list TeamContact)
| plugin_add_to_thread (channel thread : string) (emails : list string)
    : Call unit
| plugin_update_thread (case : CaseRef) (conversation_id ts : string)
    : Call unit
| plugin_page (service_id : nat) (incident_name incident_title
    incident_description : string) : Call unit
(* participant_flows, role_flow *)
| reactivate_participant (user_email : string) (case : CaseRef)
    (service_id : nat) : Call unit
| add_participant (user_email : string) (case : CaseRef) (service_id : nat)
    (role : ParticipantRoleType.t) : Call Participant
| assign_role_flow (case : CaseRef) (participant_email : string)
    (participant_role : ParticipantRoleType.t) : Call unit
(* group_flows *)
| create_group (subject : CaseRef) (group_type : GroupType)
    (group_participants : gset string) : Call unit
| update_group (subject : CaseRef) (group : option Group)
    (group_action : GroupAction) (group_member : string) : Call unit
| delete_group (group : Group) (project_id : PrimaryKey) : Call unit
(* ticket_flows *)
| create_case_ticket (case : CaseRef) : Call unit
| update_case_ticket (case : CaseRef) : Call unit
| delete_ticket (ticket : Ticket) (project_id : PrimaryKey) : Call unit
(* storage_flows *)
| create_storage (subject : CaseRef) (storage_members : list string)
    : Call unit
| update_storage (subject : CaseRef) (storage_action : StorageAction)
    (storage_members : list string) : Call unit
| delete_storage (storage : Storage) (project_id : PrimaryKey) : Call unit
(* document_flows *)
| create_document (subject : CaseRef) (document_type : DocumentResourceTypes)
    (document_template : option Document) : Call unit
| update_document (document : option Document) (project_id : PrimaryKey)
    : Call unit
(* conversation_flows *)
| create_case_conversation (case : CaseRef)
    (conversation_target : option string) : Call unit
| add_case_participants (case : CaseRef) (participant_emails : list string)
    : Call unit
(* incident_service, incident_flows *)
| incident_create (incident_in : IncidentCreate) : Call PrimaryKey
| incident_create_flow (incident_id : PrimaryKey) : Call PrimaryKey.

Inductive Res (A : Type) := Ok (a : A) | Raise (e : Exn).
Arguments Ok {A} a.
Arguments Raise {A} e.

(** The environment: for each call, the value returned or the exception
    raised, and the store it leaves. *)
Definition Env := forall R, Call R -> Store -> Res R * Store.

(** ** The trace *)

Inductive LogLevel := log_debug | log_warning | log_exception.

Inductive Event :=
| EvCall {R : Type} (c : Call R)
| EvAudit (source description : string) (case_id : PrimaryKey)
| EvLog (level : LogLevel) (msg : string)
| EvCommit (case : PrimaryKey).

Record World := { store : Store; trace : list Event }.

(** ** The monad *)

Definition M (A : Type) : Type := World -> Res A * World.

#[global] Instance M_ret : MRet M := fun A a w => (Ok a, w).

#[global] Instance M_bind : MBind M := fun A B f m w =>
  match m w with
  | (Ok a, w') => f a w'
  | (Raise e, w') => (Raise e, w')
  end.

Definition raise {A} (e : Exn) : M A := fun w => (Raise e, w).

(** [try: body except Exception as e: handler e]. The handler is run for
    the exceptions whose class derives from [Exception]; the others leave
    the [try]. *)
Definition try_except {A} (body : M A) (handler : Exn -> M A) : M A :=
  fun w =>
    match body w with
    | (Ok a, w') => (Ok a, w')
    | (Raise e, w') =>
        if exn_is_exception e then handler e w' else (Raise e, w')
    end.

Definition read {A} (f : Store -> A) : M A := fun w => (Ok (f (store w)), w).

Definition modify (f : Store -> Store) : M unit := fun w =>
  (Ok tt, {| store := f (store w); trace := trace w |}).

Definition emit (ev : Event) : M unit := fun w =>
  (Ok tt, {| store := store w; trace := trace w ++ [ev] |}).

Definition when (b : bool) (m : M unit) : M unit :=
  if b then m else mret tt.

Fixpoint for_each {A} (l : list A) (body : A -> M unit) : M unit :=
  match l with
  | [] => mret tt
  | x :: l' => body x;; for_each l' body
  end.

(** [o.attr] for a variable [o] that may hold [None]. *)
Definition getattr {A B} (o : option A) (attr : string) (f : A -> B) : M B :=
  match o with
  | Some a => mret (f a)
  | None => raise (NoneAttributeError attr)
  end.

(** [case.attr]: the attribute of the case object as it is now. *)
Definition case_attr {A} (case : CaseRef) (attr : string) (f : Case -> A)
  : M A :=
  r ← getattr case attr id;
  read (fun s => f (case_heap s r)).

(** [case.id] *)
Definition case_id_of (case : CaseRef) : M PrimaryKey :=
  getattr case "id" id.

(** [case.attr = v], by a setter of the record. *)
Definition case_setattr (case : CaseRef) (attr : string) (f : Case -> Case)
  : M unit :=
  r ← getattr case attr id;
  modify (fun s => with_case_heap (alter f r (case_heap s)) s).

(** [incident.attr] *)
Definition incident_attr {A} (incident : PrimaryKey) (f : Incident -> A)
  : M A :=
  read (fun s => f (incident_heap s incident)).

(** [datetime.utcnow()] *)
Definition utcnow : M Timestamp := read now.

(** [db_session.add(case); db_session.commit()] *)
Definition db_add_commit (case : CaseRef) : M unit :=
  match case with
  | Some r => emit (EvCommit r)
  | None => raise UnmappedInstanceError
  end.

(** [log.warning], [log.debug], [log.exception] *)
Definition log (level : LogLevel) (msg : string) : M unit :=
  emit (EvLog level msg).

(** The character the f-strings write as a backslash and the letter n. *)
Definition newline : string := String (Ascii.ascii_of_nat 10) EmptyString.

(** Python truthiness of an optional object and of a list. *)
Definition truthy {A} (o : option A) : bool :=
  match o with Some _ => true | None => false end.

Definition nonempty {A} (l : list A) : bool :=
  match l with [] => false | _ :: _ => true end.

(** ** Services that only read *)

(** Modelled from the spec: [case_service.get] / [get], which is not part
    of this file. It returns the case with that key, or [None]. *)
Definition get (case_id : PrimaryKey) : M CaseRef :=
  read (fun s => if decide (case_id ∈ case_rows s) then Some case_id else None).

(** Modelled from the spec: [plugin_service.get_active_instance], the
    capability registry: "resolves, per project and per capability kind, the
    single active provider instance. Pure lookup". *)
Definition get_active_instance (project_id : PrimaryKey)
  (plugin_type : PluginType) : M (option Plugin) :=
  read (fun s => registry s project_id plugin_type).

(** Modelled from the spec: the [active_roles] of a participant, "the
    role-assignments currently flagged active". *)
Definition active_roles (p : Participant) : list ParticipantRole :=
  filter (fun r => role_active r = true) (participant_roles p).

(** Modelled from the spec: [participant_service.get_by_case_id_and_email],
    "look up participant by (case, email)". *)
Definition participant_by_email (s : Store) (case_id : PrimaryKey)
  (email : string) : option Participant :=
  snd <$> find (fun cp => bool_decide (fst cp = case_id) &&
                          bool_decide (individual_email (individual (snd cp))
                                       = email))
               (participants s).

Definition get_by_case_id_and_email (case_id : PrimaryKey) (email : string)
  : M (option Participant) :=
  read (fun s => participant_by_email s case_id email).

(** Modelled from the spec: [participant_service.get_by_case_id_and_service_id],
    "a participant already bound to that oncall service exists for the
    case". *)
Definition participant_by_service (s : Store) (case_id : PrimaryKey)
  (service_id : nat) : option Participant :=
  snd <$> find (fun cp => bool_decide (fst cp = case_id) &&
                          bool_decide (participant_service_id (snd cp)
                                       = service_id))
               (participants s).

Definition get_by_case_id_and_service_id (case_id : PrimaryKey)
  (service_id : nat) : M (option Participant) :=
  read (fun s => participant_by_service s case_id service_id).

(** Modelled from the spec: [event_service.log_case_event], the audit
    emitter: "append-only, one record per call, never fails the caller". *)
Definition log_case_event (source description : string)
  (case_id : PrimaryKey) : M unit :=
  emit (EvAudit source description case_id).

(** ** The flows *)

(** The flows are the bodies of the Python functions, in the order their
    dependencies need. Those that [flows.py] decorates with
    [@background_task] (from [dispatch.decorators], which is not part of
    this file) are their undecorated bodies; [db_session],
    [organization_slug] and [event], which the bodies only pass on, are
    left out. *)

Section Flows.

Variable env : Env.

(** A call that leaves this file: the environment answers, the trace
    records the call. *)
Definition call {R} (c : Call R) : M R := fun w =>
  let '(r, s) := env R c (store w) in
  (r, {| store := s; trace := trace w ++ [EvCall c] |}).

(** [get_case_participants] *)
Definition get_case_participants (case : CaseRef)
  : M (list (IndividualContact * option nat) * list TeamContact) :=
  v ← case_attr case "visibility" visibility;
  if decide (v = Visibility.open) then
    pid ← case_attr case "project" (project_id ∘ project);
    plugin ← get_active_instance pid plugin_participant;
    match plugin with
    | Some p =>
        pid ← case_attr case "project" (project_id ∘ project);
        contacts ← call (plugin_get case pid);
        cid ← case_id_of case;
        log_case_event (plugin_title p) "Case participants resolved" cid;;
        mret contacts
    | None => mret ([], [])
    end
  else mret ([], []).

(** [add_participants_to_conversation]. The first warning is not followed
    by a [return]. *)
Definition add_participants_to_conversation (participant_emails : list string)
  (case : CaseRef) : M unit :=
  conv ← case_attr case "conversation" conversation;
  when (negb (truthy conv))
    (log log_warning "Case participant(s) not added to conversation. No conversation available for this case.");;
  pid ← case_attr case "project" (project_id ∘ project);
  plugin ← get_active_instance pid plugin_conversation;
  match plugin with
  | None =>
      log log_warning "Incident participant(s) not added to conversation. No conversation plugin enabled."
  | Some _ =>
      try_except
        (conv ← case_attr case "conversation" conversation;
         channel ← getattr conv "channel_id" channel_id;
         conv ← case_attr case "conversation" conversation;
         thread ← getattr conv "thread_id" thread_id;
         call (plugin_add_to_thread channel thread participant_emails))
        (fun e =>
           cid ← case_id_of case;
           log_case_event "Dispatch Core App"
             ("Adding participant(s) to case conversation failed. Reason: "
              +:+ exn_message e) cid;;
           log log_exception (exn_message e))
  end.

(** [case_add_or_reactivate_participant_flow]. It returns the participant,
    or [None] from the bare [return] of the oncall-service check. *)
Definition case_add_or_reactivate_participant_flow (user_email : string)
  (case_id : PrimaryKey) (participant_role : ParticipantRoleType.t)
  (service_id : nat) (add_to_conversation : bool) : M (option Participant) :=
  case ← get case_id;
  (* what follows the lookup of the participant by e-mail *)
  let finish (participant : Participant) : M (option Participant) :=
    tg ← case_attr case "tactical_group" tactical_group;
    match tg with
    | Some group =>
        call (update_group case (Some group) add_member
                (individual_email (individual participant)))
    | None => mret tt
    end;;
    st ← case_attr case "status" status;
    when (bool_decide (st ≠ CaseStatus.closed))
      (when add_to_conversation
         (add_participants_to_conversation
            [individual_email (individual participant)] case));;
    mret (Some participant) in
  let by_email : M (option Participant) :=
    cid ← case_id_of case;
    participant ← get_by_case_id_and_email cid user_email;
    match participant with
    | Some p =>
        if nonempty (active_roles p) then mret (Some p)
        else
          st ← case_attr case "status" status;
          when (bool_decide (st ≠ CaseStatus.closed))
            (call (reactivate_participant user_email case service_id));;
          finish p
    | None =>
        p ← call (add_participant user_email case service_id participant_role);
        finish p
    end in
  if decide (service_id ≠ 0) then
    participant ← get_by_case_id_and_service_id case_id service_id;
    match participant with
    | Some _ =>
        log log_debug "Skipping resolved participant. Oncall service member already engaged.";;
        mret None
    | None => by_email
    end
  else by_email.

(** [update_conversation] *)
Definition update_conversation (case : CaseRef) : M unit :=
  pid ← case_attr case "project" (project_id ∘ project);
  plugin ← get_active_instance pid plugin_conversation;
  getattr plugin "instance" id;;
  conv ← case_attr case "conversation" conversation;
  channel ← getattr conv "channel_id" channel_id;
  conv ← case_attr case "conversation" conversation;
  thread ← getattr conv "thread_id" thread_id;
  call (plugin_update_thread case channel thread);;
  source ← getattr plugin "plugin" plugin_title;
  cid ← case_id_of case;
  log_case_event source "Case conversation updated." cid.

(** The e-mails of [individual_participants], a list of pairs. *)
Definition emails_of (l : list (IndividualContact * option nat))
  : list string :=
  map (fun x => individual_email (fst x)) l.

(** [case_create_resources_flow]. [individual_participants.append] mutates
    the caller's list, which no caller reads again; it is a rebinding
    here. [list(set(...))] is passed as the set it is. *)
Definition case_create_resources_flow (case_id : PrimaryKey)
  (individual_participants : list (IndividualContact * option nat))
  (team_participants : list TeamContact)
  (conversation_target : option string) (create_resources : bool)
  : M unit :=
  case ← get case_id;
  a ← case_attr case "assignee" assignee;
  let individual_participants :=
    match a with
    | Some p => individual_participants ++ [(individual p, None)]
    | None => individual_participants
    end in
  when create_resources
    (let direct_participant_emails := emails_of individual_participants in
     let indirect_participant_emails := map team_email team_participants in
     gs ← case_attr case "groups" groups;
     when (negb (nonempty gs))
       (call (create_group case tactical
                (list_to_set (direct_participant_emails
                              ++ indirect_participant_emails))));;
     tg ← case_attr case "tactical_group" tactical_group;
     let storage_members :=
       match tg with
       | Some g => [group_email g]
       | None => direct_participant_emails
       end in
     st ← case_attr case "storage" storage;
     when (negb (truthy st))
       (call (create_storage case storage_members));;
     doc ← case_attr case "case_document" case_document;
     when (negb (truthy doc))
       (template ← case_attr case "case_type"
                     (case_template_document ∘ case_type);
        call (create_document case document_case template));;
     doc ← case_attr case "case_document" case_document;
     pid ← case_attr case "project" (project_id ∘ project);
     call (update_document doc pid);;
     call (update_case_ticket case));;
  try_except
    (call (create_case_conversation case conversation_target);;
     cid ← case_id_of case;
     log_case_event "Dispatch Core App" "Conversation added to case" cid;;
     let individual_participants := emails_of individual_participants in
     for_each individual_participants (fun email =>
       cid ← case_id_of case;
       case_add_or_reactivate_participant_flow email cid
         ParticipantRoleType.participant 0 false;;
       mret tt);;
     a ← case_attr case "assignee" assignee;
     i ← getattr a "individual" individual;
     let all_participants := individual_participants ++ [individual_email i] in
     call (add_case_participants case all_participants);;
     cid ← case_id_of case;
     log_case_event "Dispatch Core App"
       "Case participants added to conversation." cid)
    (fun e =>
       cid ← case_id_of case;
       log_case_event "Dispatch Core App"
         ("Creation of case conversation failed. Reason: " +:+ exn_message e)
         cid;;
       log log_exception (exn_message e)).

(** Python truthiness of [service_id], which is [None] or a number. *)
Definition service_given (service_id : option nat) : bool :=
  match service_id with
  | Some (S _) => true
  | _ => false
  end.

(** [case_new_create_flow]. When [service_id] is not given it is only
    assigned; the page is sent in the other branch. *)
Definition case_new_create_flow (case_id : PrimaryKey)
  (conversation_target : option string) (service_id : option nat)
  (create_resources : bool) : M CaseRef :=
  case ← get case_id;
  call (create_case_ticket case);;
  '(individual_participants, team_participants) ← get_case_participants case;
  cid ← case_id_of case;
  case_create_resources_flow cid individual_participants team_participants
    conversation_target create_resources;;
  when (negb create_resources) (call (update_case_ticket case));;
  page ← case_attr case "case_priority" (page_assignee ∘ case_priority);
  when page
    (if negb (service_given service_id) then
       svc ← case_attr case "case_type" (oncall_service ∘ case_type);
       match svc with
       | Some _ => mret tt
       | None =>
           log log_warning "Case assignee not paged. No relationship between case type and an oncall service."
       end
     else
       pid ← case_attr case "project" (project_id ∘ project);
       oncall_plugin ← get_active_instance pid plugin_oncall;
       match oncall_plugin with
       | Some _ =>
           n ← case_attr case "name" name;
           t ← case_attr case "title" title;
           d ← case_attr case "description" description;
           call (plugin_page (default 0 service_id) n t d)
       | None =>
           log log_warning "Case assignee not paged. No plugin of type oncall enabled."
       end);;
  db_add_commit case;;
  mret case.

(** [case_delete_flow]. The loop runs over the groups read when it starts. *)
Definition case_delete_flow (case : CaseRef) : M unit :=
  t ← case_attr case "ticket" ticket;
  match t with
  | Some tk =>
      pid ← case_attr case "project" (project_id ∘ project);
      call (delete_ticket tk pid)
  | None => mret tt
  end;;
  gs ← case_attr case "groups" groups;
  when (nonempty gs)
    (gs ← case_attr case "groups" groups;
     for_each gs (fun group =>
       pid ← case_attr case "project" (project_id ∘ project);
       call (delete_group group pid)));;
  st ← case_attr case "storage" storage;
  match st with
  | Some sg =>
      pid ← case_attr case "project" (project_id ∘ project);
      call (delete_storage sg pid)
  | None => mret tt
  end.

(** [case_new_status_flow] *)
Definition case_new_status_flow (case : CaseRef) : M unit := mret tt.

(** [case_triage_status_flow] *)
Definition case_triage_status_flow (case : CaseRef) : M unit :=
  t ← case_attr case "triage_at" triage_at;
  when (negb (truthy t))
    (t ← utcnow;
     case_setattr case "triage_at" (set_triage_at (Some t));;
     db_add_commit case).

(** [case_to_incident_escalate_flow] *)
Definition case_to_incident_escalate_flow (case : CaseRef) : M unit :=
  incs ← case_attr case "incidents" incidents;
  if nonempty incs then mret tt
  else
    it ← case_attr case "case_type" (incident_type ∘ case_type);
    match it with
    | None => mret tt
    | Some itype =>
        a ← case_attr case "assignee" assignee;
        i ← getattr a "individual" individual;
        let reporter := individual_email i in
        d ← case_attr case "description" description;
        n ← case_attr case "name" name;
        pn ← case_attr case "project" (project_name ∘ project);
        let description :=
          d +:+ newline +:+ newline
          +:+ "This incident was the result of escalating case " +:+ n +:+ " "
          +:+ "in the " +:+ pn
          +:+ " project. Check out the case in the Dispatch Web UI for additional context." in
        t ← case_attr case "title" title;
        prio ← case_attr case "case_priority" case_priority;
        let incident_in :=
          {| in_title := t; in_description := description;
             in_status := active; in_incident_type := itype;
             in_incident_priority := prio;
             in_project := incident_type_project itype;
             in_reporter := reporter |} in
        incident ← call (incident_create incident_in);
        case_setattr case "incidents"
          (fun c => set_incidents (incidents c ++ [incident]) c);;
        call (incident_create_flow incident);;
        iname ← incident_attr incident incident_name;
        ipn ← incident_attr incident (project_name ∘ incident_project);
        cid ← case_id_of case;
        log_case_event "Dispatch Core App"
          ("The case has been linked to incident " +:+ iname +:+ " in the "
           +:+ ipn +:+ " project") cid;;
        st ← case_attr case "storage" storage;
        itg ← (if truthy st
               then incident_attr incident incident_tactical_group
               else mret None);
        match itg with
        | None => mret tt
        | Some g =>
            let storage_members := [group_email g] in
            call (update_storage case add_members storage_members);;
            itg ← incident_attr incident incident_tactical_group;
            ge ← getattr itg "email" group_email;
            cid ← case_id_of case;
            log_case_event "Dispatch Core App"
              ("The members of the incident's tactical group " +:+ ge
               +:+ " have been given permission to access the case's storage folder")
              cid
        end
    end.

(** [case_escalated_status_flow] *)
Definition case_escalated_status_flow (case : CaseRef) : M unit :=
  t ← utcnow;
  case_setattr case "escalated_at" (set_escalated_at (Some t));;
  db_add_commit case;;
  case_to_incident_escalate_flow case.

(** [case_closed_status_flow] *)
Definition case_closed_status_flow (case : CaseRef) : M unit :=
  t ← utcnow;
  case_setattr case "closed_at" (set_closed_at (Some t));;
  db_add_commit case.

(** [case_triage_create_flow] *)
Definition case_triage_create_flow (case_id : PrimaryKey) : M unit :=
  case_new_create_flow case_id None None true;;
  case ← get case_id;
  case_triage_status_flow case.

(** [case_escalated_create_flow] *)
Definition case_escalated_create_flow (case_id : PrimaryKey) : M unit :=
  case_new_create_flow case_id None None true;;
  case ← get case_id;
  case_triage_status_flow case;;
  case_escalated_status_flow case.

(** [case_closed_create_flow] *)
Definition case_closed_create_flow (case_id : PrimaryKey) : M unit :=
  case_new_create_flow case_id None None true;;
  case ← get case_id;
  case_triage_status_flow case;;
  case_closed_status_flow case.

(** [case_status_transition_flow_dispatcher] *)
Definition case_status_transition_flow_dispatcher (case : CaseRef)
  (current_status previous_status : CaseStatus.t) : M unit :=
  match current_status with
  | CaseStatus.new =>
      match previous_status with
      | CaseStatus.triage => mret tt
      | CaseStatus.escalated => mret tt
      | CaseStatus.closed => mret tt
      | _ => mret tt
      end
  | CaseStatus.triage =>
      match previous_status with
      | CaseStatus.new => case_triage_status_flow case
      | CaseStatus.escalated => mret tt
      | CaseStatus.closed => mret tt
      | _ => mret tt
      end
  | CaseStatus.escalated =>
      match previous_status with
      | CaseStatus.new =>
          case_triage_status_flow case;;
          case_escalated_status_flow case
      | CaseStatus.triage => case_escalated_status_flow case
      | CaseStatus.closed => mret tt
      | _ => mret tt
      end
  | CaseStatus.closed =>
      match previous_status with
      | CaseStatus.new =>
          case_triage_status_flow case;;
          case_closed_status_flow case
      | CaseStatus.triage => case_closed_status_flow case
      | CaseStatus.escalated => case_closed_status_flow case
      | _ => mret tt
      end
  end.

(** [case_to_incident_endpoint_escalate_flow]. The last audit record is
    outside the [if]. *)
Definition case_to_incident_endpoint_escalate_flow (case_id : PrimaryKey)
  (incident_id : PrimaryKey) : M unit :=
  case ← get case_id;
  case_triage_status_flow case;;
  t ← utcnow;
  case_setattr case "escalated_at" (set_escalated_at (Some t));;
  case_setattr case "status" (set_status CaseStatus.escalated);;
  incident ← call (incident_create_flow incident_id);
  case_setattr case "incidents"
    (fun c => set_incidents (incidents c ++ [incident]) c);;
  db_add_commit case;;
  iname ← incident_attr incident incident_name;
  ipn ← incident_attr incident (project_name ∘ incident_project);
  cid ← case_id_of case;
  log_case_event "Dispatch Core App"
    ("The case has been linked to incident " +:+ iname +:+ " in the "
     +:+ ipn +:+ " project") cid;;
  st ← case_attr case "storage" storage;
  itg ← (if truthy st
         then incident_attr incident incident_tactical_group
         else mret None);
  match itg with
  | None => mret tt
  | Some g => call (update_storage case add_members [group_email g])
  end;;
  itg ← incident_attr incident incident_tactical_group;
  ge ← getattr itg "email" group_email;
  cid ← case_id_of case;
  log_case_event "Dispatch Core App"
    ("The members of the incident's tactical group " +:+ ge
     +:+ " have been given permission to access the case's storage folder")
    cid.

(** [case_assign_role_flow] *)
Definition case_assign_role_flow (case_id : PrimaryKey)
  (participant_email : string) (participant_role : ParticipantRoleType.t)
  : M unit :=
  case ← get case_id;
  cid ← case_id_of case;
  case_add_or_reactivate_participant_flow participant_email cid
    ParticipantRoleType.participant 0 true;;
  call (assign_role_flow case participant_email participant_role).

(** [case_update_flow] *)
Definition case_update_flow (case_id : PrimaryKey) (previous_case : CaseRead)
  (reporter_email assignee_email : string) : M unit :=
  case ← get case_id;
  cid ← case_id_of case;
  case_assign_role_flow cid reporter_email ParticipantRoleType.reporter;;
  cid ← case_id_of case;
  case_assign_role_flow cid assignee_email ParticipantRoleType.assignee;;
  st ← case_attr case "status" status;
  case_status_transition_flow_dispatcher case st (read_status previous_case);;
  call (update_case_ticket case);;
  st ← case_attr case "status" status;
  doc ← (if bool_decide (st = CaseStatus.escalated)
            || bool_decide (st = CaseStatus.closed)
         then case_attr case "case_document" case_document
         else mret None);
  match doc with
  | Some _ =>
      pid ← case_attr case "project" (project_id ∘ project);
      call (update_document doc pid)
  | None => mret tt
  end;;
  tg ← case_attr case "tactical_group" tactical_group;
  match tg with
  | Some _ =>
      for_each [reporter_email; assignee_email] (fun group_member =>
        tg ← case_attr case "tactical_group" tactical_group;
        call (update_group case tg add_member group_member))
  | None => mret tt
  end;;
  conv ← case_attr case "conversation" conversation;
  when (truthy conv) (update_conversation case).

End Flows.

(** * A small world to run the flows in *)

Module Fixture.

Definition security : Project :=
  {| project_id := 1; project_name := "security" |}.

Definition person (email : string) (service_id : nat) (is_active : bool)
  : Participant :=
  {| individual := {| individual_email := email |};
     participant_roles :=
       [{| role := ParticipantRoleType.participant;
           role_active := is_active |}];
     participant_service_id := service_id |}.

Definition alice : Participant := person "alice@example.com" 0 true.

Definition breach : IncidentType :=
  {| incident_type_name := "breach"; incident_type_project := security |}.

Definition responders : Group := {| group_email := "responders@example.com" |}.
Definition observers : Group := {| group_email := "observers@example.com" |}.
Definition the_ticket : Ticket := {| ticket_resource := "TICKET-1" |}.
Definition the_storage : Storage := {| storage_resource := "folder-1" |}.
Definition the_document : Document := {| document_resource := "doc-1" |}.
Definition the_thread : Conversation :=
  {| channel_id := "C01"; thread_id := "1700000000.000100" |}.

(** A new, open case of the security project, assigned to alice, whose
    type maps to an incident type; no resource, no incident, no stamp. *)
Definition bare_case : Case :=
  {| name := "case-1"; title := "phish"; description := "reported phish";
     status := CaseStatus.new; visibility := Visibility.open;
     triage_at := None; escalated_at := None; closed_at := None;
     project := security;
     case_type := {| incident_type := Some breach; oncall_service := None;
                     case_template_document := None |};
     case_priority := {| page_assignee := false |};
     assignee := Some alice;
     ticket := None; groups := []; tactical_group := None; storage := None;
     case_document := None; conversation := None; incidents := [] |}.

(** The same case with its ticket, groups, storage, document and
    conversation. *)
Definition resources (tk : option Ticket) (gs : list Group)
  (sg : option Storage) (doc : option Document) (conv : option Conversation)
  (c : Case) : Case :=
  {| name := name c; title := title c; description := description c;
     status := status c; visibility := visibility c;
     triage_at := triage_at c; escalated_at := escalated_at c;
     closed_at := closed_at c;
     project := project c; case_type := case_type c;
     case_priority := case_priority c; assignee := assignee c;
     ticket := tk; groups := gs; tactical_group := head gs; storage := sg;
     case_document := doc; conversation := conv; incidents := incidents c |}.

(** The same case with a type that is not mapped to an incident type. *)
Definition unmapped (c : Case) : Case :=
  {| name := name c; title := title c; description := description c;
     status := status c; visibility := visibility c;
     triage_at := triage_at c; escalated_at := escalated_at c;
     closed_at := closed_at c;
     project := project c;
     case_type :=
       {| incident_type := None;
          oncall_service := oncall_service (case_type c);
          case_template_document := case_template_document (case_type c) |};
     case_priority := case_priority c; assignee := assignee c;
     ticket := ticket c; groups := groups c;
     tactical_group := tactical_group c; storage := storage c;
     case_document := case_document c; conversation := conversation c;
     incidents := incidents c |}.

Definition incident7 : Incident :=
  {| incident_name := "incident-7"; incident_project := security;
     incident_tactical_group := Some responders |}.

(** The store with case 1 in state [c], the participants [ps], the
    plugins [reg] and the clock at [t]. *)
Definition store_of (c : Case) (ps : list (PrimaryKey * Participant))
  (reg : PluginType -> option Plugin) (t : Timestamp) : Store :=
  {| case_rows := {[ 1 ]};
     case_heap := fun _ => c;
     incident_heap := fun _ => incident7;
     participants := ps;
     registry := fun _ => reg;
     now := t |}.

Definition world_of (s : Store) : World := {| store := s; trace := [] |}.

Definition all_plugins (k : PluginType) : option Plugin :=
  Some {| plugin_title :=
            match k with
            | plugin_participant => "directory"
            | plugin_conversation => "chat"
            | plugin_oncall => "pager"
            end |}.

Definition no_conversation_plugin (k : PluginType) : option Plugin :=
  match k with
  | plugin_conversation => None
  | _ => all_plugins k
  end.

(** What a call returns when it returns. *)
Definition reply {R} (c : Call R) : R :=
  match c in Call R return R with
  | plugin_get _ _ => ([], [])
  | plugin_add_to_thread _ _ _ => tt
  | plugin_update_thread _ _ _ => tt
  | plugin_page _ _ _ _ => tt
  | reactivate_participant _ _ _ => tt
  | add_participant email _ service_id _ => person email service_id true
  | assign_role_flow _ _ _ => tt
  | create_group _ _ _ => tt
  | update_group _ _ _ _ => tt
  | delete_group _ _ => tt
  | create_case_ticket _ => tt
  | update_case_ticket _ => tt
  | delete_ticket _ _ => tt
  | create_storage _ _ => tt
  | update_storage _ _ _ => tt
  | delete_storage _ _ => tt
  | create_document _ _ _ => tt
  | update_document _ _ => tt
  | create_case_conversation _ _ => tt
  | add_case_participants _ _ => tt
  | incident_create _ => 7
  | incident_create_flow i => i
  end.

Definition provider_down : Exn :=
  {| exn_type := "HTTPError"; exn_is_exception := true;
     exn_message := "503 Service Unavailable" |}.

(** Every call returns and leaves the store as it is. *)
Definition quiet : Env := fun R c s => (Ok (reply c), s).

(** The calls picked by [fails] raise, the others return. *)
Definition failing (fails : forall R, Call R -> bool) : Env := fun R c s =>
  if fails R c then (Raise provider_down, s) else (Ok (reply c), s).

Definition is_delete_ticket {R} (c : Call R) : bool :=
  match c with delete_ticket _ _ => true | _ => false end.

Definition is_update_storage {R} (c : Call R) : bool :=
  match c with update_storage _ _ _ => true | _ => false end.

End Fixture.

(** * The vocabulary of the statements *)

(** ** Worlds *)

(** The world after an event. *)
Definition record (ev : Event) (w : World) : World :=
  {| store := store w; trace := trace w ++ [ev] |}.

(** The world after a case object was updated in place. *)
Definition update_case (r : PrimaryKey) (f : Case -> Case) (w : World)
  : World :=
  {| store := with_case_heap (alter f r (case_heap (store w))) (store w);
     trace := trace w |}.

(** The store once [incident] is appended to the incidents of case [r]. *)
Definition link_incident (r incident : PrimaryKey) (s : Store) : Store :=
  with_case_heap
    (alter (fun c => set_incidents (incidents c ++ [incident]) c) r
       (case_heap s)) s.

(** ** Properties of runs *)

(** [J] holds after [m] whenever it holds before, whether [m] returns or
    raises. *)
Definition stable {A} (J : World -> Prop) (m : M A) : Prop :=
  forall w, J w -> J (snd (m w)).

(** [m] raises from every world that satisfies [J]. *)
Definition raises {A} (J : World -> Prop) (m : M A) : Prop :=
  forall w, J w -> exists e, fst (m w) = Raise e.

(** [Q] holds of the outcome of [m], from any world. *)
Definition ends_with {A} (Q : Res A -> World -> Prop) (m : M A) : Prop :=
  forall w, Q (fst (m w)) (snd (m w)).

(** The events since the trace was [t0] all satisfy [P]. *)
Definition emits_only (P : Event -> Prop) (t0 : list Event) (w : World)
  : Prop :=
  exists evs, trace w = t0 ++ evs /\ Forall P evs.

(** ** Kinds of events *)

(** The calls that create or delete a group, a storage, a document or a
    ticket, and those that update a storage, a document or a ticket. The
    update of the members of a group ([update_group]) is not among them,
    nor is any call for the conversation or the participants. *)
Definition resource_call (ev : Event) : bool :=
  match ev with
  | EvCall c =>
      match c with
      | create_group _ _ _ | create_storage _ _ | create_document _ _ _
      | update_document _ _ | update_storage _ _ _
      | create_case_ticket _ | update_case_ticket _
      | delete_group _ _ | delete_storage _ _ | delete_ticket _ _ => true
      | _ => false
      end
  | _ => false
  end.

Definition no_resource_call (ev : Event) : Prop := resource_call ev = false.



(** The calls that create a group, a storage or a document. *)
Definition resource_creation (ev : Event) : bool :=
  match ev with
  | EvCall c =>
      match c with
      | create_group _ _ _ | create_storage _ _ | create_document _ _ _ => true
      | _ => false
      end
  | _ => false
  end.

(** The calls that delete a ticket, a group or a storage. *)
Definition resource_deletion {R} (c : Call R) : bool :=
  match c with
  | delete_ticket _ _ | delete_group _ _ | delete_storage _ _ => true
  | _ => false
  end.

Definition no_conversation_warning : Event :=
  EvLog log_warning
    "Case participant(s) not added to conversation. No conversation available for this case.".

Definition no_plugin_warning : Event :=
  EvLog log_warning
    "Incident participant(s) not added to conversation. No conversation plugin enabled.".

(** ** The transition table of the specification *)

(** The side-effecting steps the specification names. *)
Inductive TransitionAction :=
  StampTriage | StampEscalated | Promote | StampClosed.

(** The table, by (current, previous): the cells the specification leaves
    undefined or marks as no-op are empty. *)
Definition spec_transition_table (current previous : CaseStatus.t)
  : list TransitionAction :=
  match current, previous with
  | CaseStatus.triage, CaseStatus.new => [StampTriage]
  | CaseStatus.escalated, CaseStatus.new =>
      [StampTriage; StampEscalated; Promote]
  | CaseStatus.escalated, CaseStatus.triage => [StampEscalated; Promote]
  | CaseStatus.closed, CaseStatus.new => [StampTriage; StampClosed]
  | CaseStatus.closed, CaseStatus.triage => [StampClosed]
  | CaseStatus.closed, CaseStatus.escalated => [StampClosed]
  | _, _ => []
  end.

(** The order of the lifecycle. *)
Definition rank (s : CaseStatus.t) : nat :=
  match s with
  | CaseStatus.new => 0
  | CaseStatus.triage => 1
  | CaseStatus.escalated => 2
  | CaseStatus.closed => 3
  end.

(** ** The deletion flow *)

(** The deletions of the resources of a case, in the order of the flow. *)
Definition deletions (c : Case) : list Event :=
  let pid := project_id (project c) in
  match ticket c with
  | Some tk => [EvCall (delete_ticket tk pid)]
  | None => []
  end
  ++ map (fun g => EvCall (delete_group g pid)) (groups c)
  ++ match storage c with
     | Some sg => [EvCall (delete_storage sg pid)]
     | None => []
     end.

(** The calls [cs] attempted one after the other. Each call is chosen and
    made in the store the call before has left, and only when that call
    has returned: the first call that raises is the last one made, and
    the run ends with its exception. *)
Fixpoint attempt_each (env : Env) (cs : list (Store -> Call unit))
  (w : World) : Res unit * World :=
  match cs with
  | [] => (Ok tt, w)
  | c :: cs' =>
      let w' := {| store := snd (env _ (c (store w)) (store w));
                   trace := trace w ++ [EvCall (c (store w))] |} in
      match fst (env _ (c (store w)) (store w)) with
      | Ok _ => attempt_each env cs' w'
      | Raise e => (Raise e, w')
      end
  end.

(** Stages run one after the other. The calls of a stage are chosen in the
    store the stage before has left, and only when that stage has
    returned. *)
Fixpoint attempt_stages (env : Env)
  (stages : list (Store -> list (Store -> Call unit))) (w : World)
  : Res unit * World :=
  match stages with
  | [] => (Ok tt, w)
  | stage :: stages' =>
      match attempt_each env (stage (store w)) w with
      | (Ok _, w') => attempt_stages env stages' w'
      | (Raise e, w') => (Raise e, w')
      end
  end.

(** The three stages of the teardown of case [r]: the ticket the case has,
    then the groups it has by then, then the storage it has by then. Each
    call is made for the project the case has when the call is made. *)
Definition deletion_stages (r : PrimaryKey)
  : list (Store -> list (Store -> Call unit)) :=
  let pid s := project_id (project (case_heap s r)) in
  [ fun s => match ticket (case_heap s r) with
             | Some tk => [fun s' => delete_ticket tk (pid s')]
             | None => []
             end;
    fun s => map (fun g s' => delete_group g (pid s')) (groups (case_heap s r));
    fun s => match storage (case_heap s r) with
             | Some sg => [fun s' => delete_storage sg (pid s')]
             | None => []
             end ].

(** The calls of an environment all return, and leave case [r] as it is. *)
Definition returns_and_keeps (env : Env) (r : PrimaryKey) : Prop :=
  forall R (c : Call R) s,
    exists v s', env R c s = (Ok v, s') /\ case_heap s' r = case_heap s r.

(** When the run raised, the last event is a deletion, which raised the
    exception and left the store as it is. *)
Definition stopped_at_deletion (env : Env) {A} (res : Res A) (w' : World)
  : Prop :=
  forall e, res = Raise e ->
    exists t R (c : Call R) s,
      trace w' = t ++ [EvCall c] /\ resource_deletion c = true /\
      env R c s = (Raise e, store w').

(** ** The escalation *)

(** The incident the escalation asks for. *)
Definition escalation_incident (c : Case) (itype : IncidentType)
  (a : Participant) : IncidentCreate :=
  {| in_title := title c;
     in_description :=
       description c +:+ newline +:+ newline
       +:+ "This incident was the result of escalating case " +:+ name c +:+ " "
       +:+ "in the " +:+ project_name (project c)
       +:+ " project. Check out the case in the Dispatch Web UI for additional context.";
     in_status := active;
     in_incident_type := itype;
     in_incident_priority := case_priority c;
     in_project := incident_type_project itype;
     in_reporter := individual_email (individual a) |}.

(** ** The update flow *)

(** Case [r] has a conversation, and its project has no active
    conversation plugin. *)
Definition conversation_without_plugin (r : PrimaryKey) (s : Store) : Prop :=
  r ∈ case_rows s /\
  conversation (case_heap s r) <> None /\
  registry s (project_id (project (case_heap s r))) plugin_conversation = None.

(** ** More kinds of events *)

(** The events that are a deletion of a ticket, a group or a storage. *)
Definition deletion_event (ev : Event) : bool :=
  match ev with
  | EvCall c => resource_deletion c
  | _ => false
  end.

(** The page of an oncall service. *)
Definition page_event (ev : Event) : bool :=
  match ev with
  | EvCall (plugin_page _ _ _ _) => true
  | _ => false
  end.

(** The push of e-mails to the thread of a conversation. *)
Definition thread_push (ev : Event) : bool :=
  match ev with
  | EvCall (plugin_add_to_thread _ _ _) => true
  | _ => false
  end.

(** The push in bulk of the participants to the conversation. *)
Definition bulk_push (ev : Event) : bool :=
  match ev with
  | EvCall (add_case_participants _ _) => true
  | _ => false
  end.

(** ** The exceptions a handler catches *)

(** The calls raise exceptions of classes that derive from [Exception]
    only. *)
Definition raises_exceptions_only (env : Env) : Prop :=
  forall R (c : Call R) s e,
    fst (env R c s) = Raise e -> exn_is_exception e = true.

(** What the run raised, when it raised, derives from [Exception]. *)
Definition ordinary {A} (res : Res A) (w : World) : Prop :=
  forall e, res = Raise e -> exn_is_exception e = true.

(** Case [r] has no assignee, and no participant was pushed in bulk since
    the trace was [t0]. *)
Definition unassigned (r : PrimaryKey) (t0 : list Event) (w : World) : Prop :=
  assignee (case_heap (store w) r) = None
  /\ emits_only (fun ev => bulk_push ev = false) t0 w.


(** The update of the ticket of a case. *)
Definition ticket_update (ev : Event) : bool :=
  match ev with
  | EvCall (update_case_ticket _) => true
  | _ => false
  end.

(** The creation of the ticket of a case. *)
Definition ticket_creation (ev : Event) : bool :=
  match ev with
  | EvCall (create_case_ticket _) => true
  | _ => false
  end.

(** The calls that create or delete a ticket, a group, a storage, a
    document or a conversation, and the page. *)
Definition upheaval (ev : Event) : bool :=
  match ev with
  | EvCall c =>
      match c with
      | create_group _ _ _ | create_storage _ _ | create_document _ _ _
      | create_case_ticket _ | create_case_conversation _ _
      | delete_group _ _ | delete_storage _ _ | delete_ticket _ _
      | plugin_page _ _ _ _ => true
      | _ => false
      end
  | _ => false
  end.

(** At most [k] of the events since the trace was [t0] satisfy [p]. *)
Definition emits_at_most (k : nat) (p : Event -> bool) (t0 : list Event)
  (w : World) : Prop :=
  exists evs, trace w = t0 ++ evs /\ length (filter (fun ev => p ev = true) evs) <= k.

(** From a world that satisfies [J], [m] ends in one that satisfies [J'],
    whether it returns or raises. *)
Definition steps {A} (J J' : World -> Prop) (m : M A) : Prop :=
  forall w, J w -> J' (snd (m w)).

(** [Q] holds of the value and the world whenever [m] returns. *)
Definition returns_with {A} (Q : A -> World -> Prop) (m : M A) : Prop :=
  forall w a w', m w = (Ok a, w') -> Q a w'.

(** ** The endpoint escalation *)

(** The world in which the endpoint escalation calls the incident creation
    flow: the case is triaged if it was not, stamped as escalated at the
    current time and set to the escalated status; nothing of this is
    committed yet. *)
Definition endpoint_stamped (r : PrimaryKey) (w : World) : World :=
  let w1 := snd (case_triage_status_flow (Some r) w) in
  update_case r (set_status CaseStatus.escalated)
    (update_case r (set_escalated_at (Some (now (store w1)))) w1).

(** ** The values of the enumerations *)

(** [dispatch/enums.py]: the string each member of [Visibility] stands
    for. *)
Definition visibility_value (v : Visibility.t) : string :=
  match v with
  | Visibility.open => "Open"
  | Visibility.restricted => "Restricted"
  end.

Definition visibility_members : list Visibility.t :=
  [Visibility.open; Visibility.restricted].

(** [dispatch/enums.py] *)
Module SearchTypes.
Inductive t :=
  | term | definition | individual_contact | team_contact | service | policy
  | tag | task | document | plugin | incident_priority | incident_type
  | incident.
#[global] Instance search_types_eq_dec : EqDecision t.
Proof. solve_decision. Defined.
End SearchTypes.

Definition search_types_value (m : SearchTypes.t) : string :=
  match m with
  | SearchTypes.term => "Term"
  | SearchTypes.definition => "Definition"
  | SearchTypes.individual_contact => "Individual"
  | SearchTypes.team_contact => "Team"
  | SearchTypes.service => "Service"
  | SearchTypes.policy => "Policy"
  | SearchTypes.tag => "Tag"
  | SearchTypes.task => "Task"
  | SearchTypes.document => "Document"
  | SearchTypes.plugin => "Plugin"
  | SearchTypes.incident_priority => "IncidentPriority"
  | SearchTypes.incident_type => "IncidentType"
  | SearchTypes.incident => "Incident"
  end.

Definition search_types_members : list SearchTypes.t :=
  [SearchTypes.term; SearchTypes.definition; SearchTypes.individual_contact;
   SearchTypes.team_contact; SearchTypes.service; SearchTypes.policy;
   SearchTypes.tag; SearchTypes.task; SearchTypes.document;
   SearchTypes.plugin; SearchTypes.incident_priority;
   SearchTypes.incident_type; SearchTypes.incident].

(** [Enum(value)]: the first member, in the order of the class body, that
    stands for the value; [None] is the [ValueError]. *)
Definition enum_of_value {A} (value : A -> string) (members : list A)
  (s : string) : option A :=
  find (fun m => bool_decide (value m = s)) members.

(** * Running the flows *)

(** ** One step of a run *)

Section Run.

Context {A B : Type}.

Lemma run_bind (m : M A) (k : A -> M B) w :
  (m ≫= k) w =
  match m w with
  | (Ok a, w') => k a w'
  | (Raise e, w') => (Raise e, w')
  end.
Proof. reflexivity. Qed.

Lemma run_ret (a : A) w : mret (M := M) a w = (Ok a, w).
Proof. reflexivity. Qed.

Lemma run_raise e w : raise (A := A) e w = (Raise e, w).
Proof. reflexivity. Qed.

Lemma run_read (f : Store -> A) w : read f w = (Ok (f (store w)), w).
Proof. reflexivity. Qed.

Lemma run_try_except (body : M A) handler w :
  try_except body handler w =
  match body w with
  | (Ok a, w') => (Ok a, w')
  | (Raise e, w') =>
      if exn_is_exception e then handler e w' else (Raise e, w')
  end.
Proof. reflexivity. Qed.

Lemma run_getattr_some (a : A) attr (f : A -> B) w :
  getattr (Some a) attr f w = (Ok (f a), w).
Proof. reflexivity. Qed.

Lemma run_getattr_none attr (f : A -> B) w :
  getattr None attr f w = (Raise (NoneAttributeError attr), w).
Proof. reflexivity. Qed.

Lemma run_case_attr r attr (f : Case -> A) w :
  case_attr (Some r) attr f w = (Ok (f (case_heap (store w) r)), w).
Proof. reflexivity. Qed.

Lemma run_incident_attr i (f : Incident -> A) w :
  incident_attr i f w = (Ok (f (incident_heap (store w) i)), w).
Proof. reflexivity. Qed.

End Run.

Lemma run_emit ev w : emit ev w = (Ok tt, record ev w).
Proof. reflexivity. Qed.

Lemma run_log level msg w : log level msg w = (Ok tt, record (EvLog level msg) w).
Proof. reflexivity. Qed.

Lemma run_log_case_event source description cid w :
  log_case_event source description cid w =
  (Ok tt, record (EvAudit source description cid) w).
Proof. reflexivity. Qed.

Lemma run_case_id_of r w : case_id_of (Some r) w = (Ok r, w).
Proof. reflexivity. Qed.

Lemma run_case_setattr r attr f w :
  case_setattr (Some r) attr f w = (Ok tt, update_case r f w).
Proof. reflexivity. Qed.

Lemma run_utcnow w : utcnow w = (Ok (now (store w)), w).
Proof. reflexivity. Qed.

Lemma run_db_add_commit r w :
  db_add_commit (Some r) w = (Ok tt, record (EvCommit r) w).
Proof. reflexivity. Qed.

Lemma run_get_found r w :
  r ∈ case_rows (store w) -> get r w = (Ok (Some r), w).
Proof. intros H. unfold get, read. by rewrite decide_True. Qed.

Lemma run_get_active_instance pid kind w :
  get_active_instance pid kind w = (Ok (registry (store w) pid kind), w).
Proof. reflexivity. Qed.

Lemma run_when_true m w : when true m w = m w.
Proof. reflexivity. Qed.

Lemma run_when_false m w : when false m w = (Ok tt, w).
Proof. reflexivity. Qed.

Lemma run_call env {R} (c : Call R) w :
  call env c w =
  (fst (env R c (store w)),
   {| store := snd (env R c (store w)); trace := trace w ++ [EvCall c] |}).
Proof. unfold call. by destruct (env R c (store w)). Qed.

(** The attribute reads of an updated case. *)
Lemma case_heap_update_case r f w :
  case_heap (store (update_case r f w)) r = f (case_heap (store w) r).
Proof. cbn. apply fn_lookup_alter. Qed.

Lemma store_record ev w : store (record ev w) = store w.
Proof. reflexivity. Qed.

(** Symbolic execution of the head of a run, up to the first call that
    leaves the file. *)
Ltac mstep :=
  repeat first
    [ rewrite run_bind | rewrite run_ret | rewrite run_raise
    | rewrite run_read | rewrite run_getattr_some | rewrite run_getattr_none
    | rewrite run_case_attr | rewrite run_incident_attr
    | rewrite run_case_id_of | rewrite run_case_setattr
    | rewrite run_utcnow | rewrite run_db_add_commit
    | rewrite run_emit | rewrite run_log | rewrite run_log_case_event
    | rewrite run_get_active_instance
    | rewrite run_when_true | rewrite run_when_false
    | progress cbn [negb truthy nonempty compose fst snd] ];
  cbv beta iota.

(** * Invariants of runs *)

Section Stable.

Variable J : World -> Prop.

Lemma stable_ret {A} (a : A) : stable J (mret a).
Proof. by intros w. Qed.

Lemma stable_raise {A} e : stable J (raise (A := A) e).
Proof. by intros w. Qed.

Lemma stable_read {A} (f : Store -> A) : stable J (read f).
Proof. by intros w. Qed.

Lemma stable_getattr {A B} (o : option A) attr (f : A -> B) :
  stable J (getattr o attr f).
Proof. by destruct o; intros w. Qed.

Lemma stable_bind {A B} (m : M A) (k : A -> M B) :
  stable J m -> (forall a, stable J (k a)) -> stable J (m ≫= k).
Proof.
  intros Hm Hk w HJ. rewrite run_bind. specialize (Hm w HJ).
  destruct (m w) as [[a | e] w']; cbn in *; [by apply Hk | done].
Qed.

Lemma stable_try_except {A} (body : M A) handler :
  stable J body -> (forall e, stable J (handler e)) ->
  stable J (try_except body handler).
Proof.
  intros Hbody Hhandler w HJ. rewrite run_try_except.
  specialize (Hbody w HJ).
  destruct (body w) as [[a | e] w']; cbn in *; [done |].
  destruct (exn_is_exception e); [by apply Hhandler | done].
Qed.

Lemma stable_when b m : stable J m -> stable J (when b m).
Proof. destruct b; intros Hm; [exact Hm | by intros w]. Qed.

Lemma stable_when_false m : stable J (when false m).
Proof. by intros w. Qed.

Lemma stable_for_each {A} (l : list A) body :
  (forall x, stable J (body x)) -> stable J (for_each l body).
Proof.
  intros Hbody. induction l as [| x l IH]; cbn [for_each].
  - apply stable_ret.
  - apply stable_bind; [apply Hbody | by intros _].
Qed.

Lemma stable_case_attr {A} case attr (f : Case -> A) :
  stable J (case_attr case attr f).
Proof.
  apply stable_bind; [apply stable_getattr | intros r; apply stable_read].
Qed.

Lemma stable_case_id_of case : stable J (case_id_of case).
Proof. apply stable_getattr. Qed.

Lemma stable_incident_attr {A} i (f : Incident -> A) :
  stable J (incident_attr i f).
Proof. apply stable_read. Qed.

Lemma stable_emit ev :
  (forall w, J w -> J (record ev w)) -> stable J (emit ev).
Proof. intros Hev w HJ. by apply Hev. Qed.

Lemma stable_case_setattr case attr f :
  (forall r w, J w -> J (update_case r f w)) ->
  stable J (case_setattr case attr f).
Proof.
  intros Hf. destruct case as [r |]; intros w HJ; [by apply Hf | done].
Qed.

Lemma stable_db_add_commit case :
  (forall r w, J w -> J (record (EvCommit r) w)) ->
  stable J (db_add_commit case).
Proof.
  intros Hev. destruct case as [r |]; intros w HJ; [by apply Hev | done].
Qed.

Lemma stable_call env {R} (c : Call R) :
  (forall w, J w ->
     J {| store := snd (env R c (store w));
          trace := trace w ++ [EvCall c] |}) ->
  stable J (call env c).
Proof. intros Hc w HJ. rewrite run_call. by apply Hc. Qed.

End Stable.

(** One step through the structure of a flow; [leaf] is left with the
    writes, the events, the calls and the flows called. *)
Ltac stable_step leaf :=
  lazymatch goal with
  | |- stable _ (mbind _ _) => apply stable_bind; [| intros ?]
  | |- stable _ (mret _) => apply stable_ret
  | |- stable _ (raise _) => apply stable_raise
  | |- stable _ (read _) => apply stable_read
  | |- stable _ (getattr _ _ _) => apply stable_getattr
  | |- stable _ (case_attr _ _ _) => apply stable_case_attr
  | |- stable _ (case_id_of _) => apply stable_case_id_of
  | |- stable _ (incident_attr _ _) => apply stable_incident_attr
  | |- stable _ utcnow => apply stable_read
  | |- stable _ (get _) => apply stable_read
  | |- stable _ (get_active_instance _ _) => apply stable_read
  | |- stable _ (get_by_case_id_and_email _ _) => apply stable_read
  | |- stable _ (get_by_case_id_and_service_id _ _) => apply stable_read
  | |- stable _ (when false _) => apply stable_when_false
  | |- stable _ (when _ _) => apply stable_when
  | |- stable _ (for_each _ _) => apply stable_for_each; intros ?
  | |- stable _ (try_except _ _) => apply stable_try_except; [| intros ?]
  | |- stable _ (log _ _) => apply stable_emit; leaf
  | |- stable _ (log_case_event _ _ _) => apply stable_emit; leaf
  | |- stable _ (emit _) => apply stable_emit; leaf
  | |- stable _ (case_setattr _ _ _) => apply stable_case_setattr; leaf
  | |- stable _ (db_add_commit _) => apply stable_db_add_commit; leaf
  | |- stable _ (call _ _) => apply stable_call; leaf
  | |- stable _ (match ?x with _ => _ end) => destruct x
  | |- stable _ _ => leaf
  end.

Ltac stable_flow leaf := cbv zeta; repeat stable_step leaf.

(** ** The events of a run *)

Lemma emits_only_start P w : emits_only P (trace w) w.
Proof. exists []. by rewrite app_nil_r. Qed.

Lemma emits_only_record (P : Event -> Prop) t0 ev w :
  P ev -> emits_only P t0 w -> emits_only P t0 (record ev w).
Proof.
  intros Hev (evs & Htrace & Hall). exists (evs ++ [ev]). split.
  - cbn. by rewrite Htrace, app_assoc.
  - apply Forall_app. by split; [| apply Forall_singleton].
Qed.

Lemma emits_only_call (P : Event -> Prop) t0 (env : Env) {R} (c : Call R) w :
  P (EvCall c) -> emits_only P t0 w ->
  emits_only P t0 {| store := snd (env R c (store w));
                     trace := trace w ++ [EvCall c] |}.
Proof.
  intros Hev (evs & Htrace & Hall). exists (evs ++ [EvCall c]). split.
  - cbn. by rewrite Htrace, app_assoc.
  - apply Forall_app. by split; [| apply Forall_singleton].
Qed.

Lemma emits_only_update_case P t0 r f w :
  emits_only P t0 w -> emits_only P t0 (update_case r f w).
Proof. done. Qed.

(** What holds of the events of [m] from any trace holds of them under a
    weaker predicate. *)
Lemma stable_emits_only_weaken {A} (P Q : Event -> Prop) (m : M A) :
  (forall ev, P ev -> Q ev) ->
  (forall t0, stable (emits_only P t0) m) ->
  forall t0, stable (emits_only Q t0) m.
Proof.
  intros HPQ Hm t0 w (evs & Htrace & Hall).
  destruct (Hm (trace w) w (emits_only_start P w)) as (evs' & Htrace' & Hall').
  exists (evs ++ evs'). split.
  - by rewrite Htrace', Htrace, app_assoc.
  - apply Forall_app. split; [done |].
    eapply Forall_impl; [exact HPQ | exact Hall'].
Qed.


Lemma resource_creation_call ev :
  resource_call ev = false -> resource_creation ev = false.
Proof. destruct ev as [R c | | |]; [by destruct c | done..]. Qed.

Ltac emits_leaf :=
  intros;
  first [ apply emits_only_record; [first [reflexivity | exact I] | assumption]
        | apply emits_only_call; [first [reflexivity | exact I] | assumption]
        | apply emits_only_update_case; assumption ].

Section ConversationEvents.

Variable env : Env.
Variable t0 : list Event.

Lemma add_participants_to_conversation_events emails case :
  stable (emits_only no_resource_call t0)
    (add_participants_to_conversation env emails case).
Proof. unfold add_participants_to_conversation. stable_flow emits_leaf. Qed.

Lemma add_or_reactivate_events email case_id role service_id atc :
  stable (emits_only no_resource_call t0)
    (case_add_or_reactivate_participant_flow env email case_id role
       service_id atc).
Proof.
  unfold case_add_or_reactivate_participant_flow.
  stable_flow ltac:(first [ emits_leaf
                          | apply add_participants_to_conversation_events ]).
Qed.

Lemma get_case_participants_events case :
  stable (emits_only no_resource_call t0) (get_case_participants env case).
Proof. unfold get_case_participants. stable_flow emits_leaf. Qed.

(** Without [create_resources], the provisioning flow makes no resource
    call. *)
Lemma create_resources_flow_events case_id individual_participants
    team_participants conversation_target :
  stable (emits_only no_resource_call t0)
    (case_create_resources_flow env case_id individual_participants
       team_participants conversation_target false).
Proof.
  unfold case_create_resources_flow.
  stable_flow ltac:(first [ emits_leaf | apply add_or_reactivate_events ]).
Qed.

End ConversationEvents.


(** ** Handlers *)

Lemma run_try_except_bind {A B} (m : M A) (k : A -> M B) handler w :
  try_except (m ≫= k) handler w =
  match m w with
  | (Ok a, w') => try_except (k a) handler w'
  | (Raise e, w') =>
      if exn_is_exception e then handler e w' else (Raise e, w')
  end.
Proof.
  rewrite run_try_except, run_bind.
  destruct (m w) as [[a | e] w']; [by rewrite run_try_except | done].
Qed.

(** A [try] whose handler always returns lets no exception out that
    derives from [Exception]. *)
Lemma try_except_catches (body : M unit) handler w e :
  (forall e w', fst (handler e w') = Ok tt) ->
  fst (try_except body handler w) = Raise e -> exn_is_exception e = false.
Proof.
  intros Hhandler. rewrite run_try_except.
  destruct (body w) as [[[] | e'] w']; [done |].
  destruct (exn_is_exception e') eqn:Hclass.
  - by rewrite Hhandler.
  - by intros [= <-].
Qed.


(** ** Runs that raise what a handler catches *)

Section Ordinary.

Variable env : Env.
Hypothesis env_ordinary : raises_exceptions_only env.

Lemma ordinary_ret {A} (a : A) : ends_with ordinary (mret a).
Proof. by intros w e. Qed.

Lemma ordinary_read {A} (f : Store -> A) : ends_with ordinary (read f).
Proof. by intros w e. Qed.

Lemma ordinary_emit ev : ends_with ordinary (emit ev).
Proof. by intros w e. Qed.

Lemma ordinary_getattr {A B} (o : option A) attr (f : A -> B) :
  ends_with ordinary (getattr o attr f).
Proof. destruct o; intros w e; [done | by intros [= <-]]. Qed.

Lemma ordinary_bind {A B} (m : M A) (k : A -> M B) :
  ends_with ordinary m -> (forall a, ends_with ordinary (k a)) ->
  ends_with ordinary (m ≫= k).
Proof.
  intros Hm Hk w. rewrite run_bind. specialize (Hm w).
  destruct (m w) as [[a | e] w']; [apply Hk |].
  intros e' [= <-]. by apply Hm.
Qed.

Lemma ordinary_case_attr {A} case attr (f : Case -> A) :
  ends_with ordinary (case_attr case attr f).
Proof.
  apply ordinary_bind; [apply ordinary_getattr | intros r; apply ordinary_read].
Qed.

Lemma ordinary_when b m :
  ends_with ordinary m -> ends_with ordinary (when b m).
Proof. destruct b; [done | intros _; apply ordinary_ret]. Qed.

Lemma ordinary_for_each {A} (l : list A) body :
  (forall x, ends_with ordinary (body x)) ->
  ends_with ordinary (for_each l body).
Proof.
  intros Hbody. induction l as [| x l IH]; cbn [for_each].
  - apply ordinary_ret.
  - apply ordinary_bind; [apply Hbody | by intros _].
Qed.

Lemma ordinary_try_except {A} (body : M A) handler :
  ends_with ordinary body -> (forall e, ends_with ordinary (handler e)) ->
  ends_with ordinary (try_except body handler).
Proof.
  intros Hbody Hhandler w. rewrite run_try_except. specialize (Hbody w).
  destruct (body w) as [[a | e] w']; [done |].
  destruct (exn_is_exception e); [apply Hhandler |].
  intros e' [= <-]. by apply Hbody.
Qed.

Lemma ordinary_call {R} (c : Call R) : ends_with ordinary (call env c).
Proof.
  intros w e. rewrite run_call. cbn [fst snd]. apply env_ordinary.
Qed.

End Ordinary.

Ltac ordinary_flow leaf :=
  cbv zeta;
  repeat lazymatch goal with
    | |- ends_with _ (mbind _ _) => apply ordinary_bind; [| intros ?]
    | |- ends_with _ (mret _) => apply ordinary_ret
    | |- ends_with _ (read _) => apply ordinary_read
    | |- ends_with _ (getattr _ _ _) => apply ordinary_getattr
    | |- ends_with _ (case_attr _ _ _) => apply ordinary_case_attr
    | |- ends_with _ (case_id_of _) => apply ordinary_getattr
    | |- ends_with _ (get _) => apply ordinary_read
    | |- ends_with _ (get_active_instance _ _) => apply ordinary_read
    | |- ends_with _ (get_by_case_id_and_email _ _) => apply ordinary_read
    | |- ends_with _ (get_by_case_id_and_service_id _ _) => apply ordinary_read
    | |- ends_with _ (when _ _) => apply ordinary_when
    | |- ends_with _ (for_each _ _) => apply ordinary_for_each; intros ?
    | |- ends_with _ (try_except _ _) => apply ordinary_try_except; [| intros ?]
    | |- ends_with _ (log _ _) => apply ordinary_emit
    | |- ends_with _ (log_case_event _ _ _) => apply ordinary_emit
    | |- ends_with _ (emit _) => apply ordinary_emit
    | |- ends_with _ (call _ _) => apply ordinary_call; assumption
    | |- ends_with _ (match ?x with _ => _ end) => destruct x
    | |- ends_with _ _ => leaf
    end.

Lemma add_participants_to_conversation_ordinary env emails case :
  raises_exceptions_only env ->
  ends_with ordinary (add_participants_to_conversation env emails case).
Proof.
  intros Henv. unfold add_participants_to_conversation. ordinary_flow fail.
Qed.

Lemma add_or_reactivate_ordinary env email case_id role service_id atc :
  raises_exceptions_only env ->
  ends_with ordinary
    (case_add_or_reactivate_participant_flow env email case_id role
       service_id atc).
Proof.
  intros Henv. unfold case_add_or_reactivate_participant_flow.
  ordinary_flow ltac:(by apply add_participants_to_conversation_ordinary).
Qed.

(** ** Runs that raise *)

Lemma raises_bind {A B} (J : World -> Prop) (m : M A) (k : A -> M B) :
  stable J m -> (forall a, raises J (k a)) -> raises J (m ≫= k).
Proof.
  intros Hm Hk w HJ. rewrite run_bind. specialize (Hm w HJ).
  destruct (m w) as [[a | e] w']; cbn in *; [by apply Hk | by exists e].
Qed.

(** ** Runs that stop at a failed deletion *)

Section Stopped.

Variable env : Env.

Lemma stopped_ret {A} (a : A) :
  ends_with (stopped_at_deletion env) (mret a).
Proof. by intros w e. Qed.

Lemma stopped_case_attr {A} r attr (f : Case -> A) :
  ends_with (stopped_at_deletion env) (case_attr (Some r) attr f).
Proof. by intros w e. Qed.

Lemma stopped_bind {A B} (m : M A) (k : A -> M B) :
  ends_with (stopped_at_deletion env) m ->
  (forall a, ends_with (stopped_at_deletion env) (k a)) ->
  ends_with (stopped_at_deletion env) (m ≫= k).
Proof.
  intros Hm Hk w. rewrite run_bind. specialize (Hm w).
  destruct (m w) as [[a | e] w']; [apply Hk |].
  intros e' [= <-]. by apply Hm.
Qed.

Lemma stopped_when b m :
  ends_with (stopped_at_deletion env) m ->
  ends_with (stopped_at_deletion env) (when b m).
Proof. destruct b; [done | by intros _ w e]. Qed.

Lemma stopped_for_each {A} (l : list A) body :
  (forall x, ends_with (stopped_at_deletion env) (body x)) ->
  ends_with (stopped_at_deletion env) (for_each l body).
Proof.
  intros Hbody. induction l as [| x l IH]; cbn [for_each].
  - apply stopped_ret.
  - apply stopped_bind; [apply Hbody | by intros _].
Qed.

Lemma stopped_call {R} (c : Call R) :
  resource_deletion c = true ->
  ends_with (stopped_at_deletion env) (call env c).
Proof.
  intros Hc w e. rewrite run_call. cbn [fst snd]. intros Hraise.
  exists (trace w), R, c, (store w). repeat split; [done |].
  cbn [store]. destruct (env R c (store w)) as [res s']. cbn in *.
  by rewrite Hraise.
Qed.

End Stopped.

Ltac stopped_flow :=
  cbv zeta;
  repeat lazymatch goal with
    | |- ends_with _ (mbind _ _) => apply stopped_bind; [| intros ?]
    | |- ends_with _ (mret _) => apply stopped_ret
    | |- ends_with _ (case_attr (Some _) _ _) => apply stopped_case_attr
    | |- ends_with _ (when _ _) => apply stopped_when
    | |- ends_with _ (for_each _ _) => apply stopped_for_each; intros ?
    | |- ends_with _ (call _ _) => apply stopped_call; reflexivity
    | |- ends_with _ (match ?x with _ => _ end) => destruct x
    end.

(** * The transition dispatcher *)

(** The cells without action are the diagonal and the transitions back to
    an earlier status. *)
Lemma spec_transition_table_backwards current previous :
  rank current <= rank previous <->
  spec_transition_table current previous = [].
Proof. destruct current, previous; cbn; split; intros; (done || lia). Qed.

(** C5. For every pair (current, previous) to which the transition table
    gives no action, the dispatcher returns and leaves the world as it
    found it: no attribute is written, nothing is committed, no call is
    made, nothing is logged. *)
Theorem dispatcher_no_action_no_effect env case current previous w :
  spec_transition_table current previous = [] ->
  case_status_transition_flow_dispatcher env case current previous w
  = (Ok tt, w).
Proof.
  destruct current, previous; cbn; intros Htable;
    solve [ reflexivity | discriminate Htable ].
Qed.

Lemma dispatcher_no_action_no_effect_witness :
  spec_transition_table CaseStatus.triage CaseStatus.closed = [] /\
  case_status_transition_flow_dispatcher Fixture.quiet (Some 1)
    CaseStatus.triage CaseStatus.closed
    (Fixture.world_of (Fixture.store_of Fixture.bare_case []
                         Fixture.all_plugins 9%Z))
  = (Ok tt, Fixture.world_of (Fixture.store_of Fixture.bare_case []
                                Fixture.all_plugins 9%Z)).
Proof.
  split; [reflexivity |].
  apply dispatcher_no_action_no_effect. reflexivity.
Defined.

(** A case that goes from new to escalated is stamped twice, and
    escalated to an incident when its type is mapped to an incident type. *)
Example dispatcher_new_to_escalated :
  let w := Fixture.world_of
             (Fixture.store_of Fixture.bare_case [] Fixture.all_plugins 9%Z) in
  let run := case_status_transition_flow_dispatcher Fixture.quiet (Some 1)
               CaseStatus.escalated CaseStatus.new w in
  let c := case_heap (store (snd run)) 1 in
  fst run = Ok tt /\
  triage_at c = Some 9%Z /\ escalated_at c = Some 9%Z /\ incidents c = [7].
Proof. repeat split; vm_compute; reflexivity. Qed.

Example dispatcher_new_to_escalated_unmapped :
  let w := Fixture.world_of
             (Fixture.store_of (Fixture.unmapped Fixture.bare_case) []
                Fixture.all_plugins 9%Z) in
  let run := case_status_transition_flow_dispatcher Fixture.quiet (Some 1)
               CaseStatus.escalated CaseStatus.new w in
  let c := case_heap (store (snd run)) 1 in
  triage_at c = Some 9%Z /\ escalated_at c = Some 9%Z /\ incidents c = [] /\
  trace (snd run) = [EvCommit 1; EvCommit 1].
Proof. repeat split; vm_compute; reflexivity. Qed.

(** * The stamp steps *)

(** The claim of the specification fails on the escalated and the closed
    step: with [escalated_at] and [closed_at] set at 5 and the clock at 9,
    each step moves its timestamp to 9. (The case is linked to an incident
    already, so that the escalated step does nothing else.) *)
Lemma escalated_and_closed_stamps_overwrite :
  let c := set_closed_at (Some 5%Z)
             (set_escalated_at (Some 5%Z)
                (set_incidents [7] Fixture.bare_case)) in
  let w := Fixture.world_of (Fixture.store_of c [] Fixture.all_plugins 9%Z) in
  closed_at (case_heap (store w) 1) = Some 5%Z /\
  closed_at (case_heap (store (snd (case_closed_status_flow (Some 1) w))) 1)
    = Some 9%Z /\
  escalated_at (case_heap (store w) 1) = Some 5%Z /\
  escalated_at
    (case_heap (store (snd (case_escalated_status_flow Fixture.quiet
                              (Some 1) w))) 1)
    = Some 9%Z.
Proof. repeat split; vm_compute; reflexivity. Qed.

(** C2, as the code has it. The triage step stamps [triage_at] with the
    current time only if it is unset, and commits only then: once
    set, [triage_at] is not changed by the triage step, and the step does
    nothing at all. The closed step and the escalated step stamp
    [closed_at] and [escalated_at] with the current time and commit on every
    invocation, whatever the timestamp was; the escalated step then runs
    the escalation of the case to an incident. *)
Theorem stamp_steps env r w :
  let c := case_heap (store w) r in
  let t := now (store w) in
  (triage_at c <> None -> case_triage_status_flow (Some r) w = (Ok tt, w)) /\
  (triage_at c = None ->
     case_triage_status_flow (Some r) w
     = (Ok tt, record (EvCommit r) (update_case r (set_triage_at (Some t)) w))
     /\ triage_at (case_heap
                     (store (snd (case_triage_status_flow (Some r) w))) r)
        = Some t) /\
  (case_closed_status_flow (Some r) w
   = (Ok tt, record (EvCommit r) (update_case r (set_closed_at (Some t)) w))
   /\ closed_at (case_heap (store (snd (case_closed_status_flow (Some r) w))) r)
      = Some t) /\
  (case_escalated_status_flow env (Some r) w
   = case_to_incident_escalate_flow env (Some r)
       (record (EvCommit r) (update_case r (set_escalated_at (Some t)) w))
   /\ escalated_at
        (case_heap
           (store (record (EvCommit r)
                     (update_case r (set_escalated_at (Some t)) w))) r)
      = Some t).
Proof.
  intros c t. subst c t. split; [| split; [| split]].
  - intros Hset. unfold case_triage_status_flow. mstep.
    destruct (triage_at (case_heap (store w) r)); [| done]. by mstep.
  - intros Hunset.
    assert (Hrun : case_triage_status_flow (Some r) w
                   = (Ok tt, record (EvCommit r)
                               (update_case r
                                  (set_triage_at (Some (now (store w)))) w))).
    { unfold case_triage_status_flow. mstep. rewrite Hunset. by mstep. }
    split; [exact Hrun |]. rewrite Hrun. cbn [snd].
    by rewrite store_record, case_heap_update_case.
  - assert (Hrun : case_closed_status_flow (Some r) w
                   = (Ok tt, record (EvCommit r)
                               (update_case r
                                  (set_closed_at (Some (now (store w)))) w))).
    { unfold case_closed_status_flow. by mstep. }
    split; [exact Hrun |]. rewrite Hrun. cbn [snd].
    by rewrite store_record, case_heap_update_case.
  - split.
    + unfold case_escalated_status_flow. by mstep.
    + by rewrite store_record, case_heap_update_case.
Qed.

(** The triage step on a case stamped at 5, with the clock at 9. *)
Lemma stamp_steps_witness :
  let c := set_triage_at (Some 5%Z) Fixture.bare_case in
  let w := Fixture.world_of (Fixture.store_of c [] Fixture.all_plugins 9%Z) in
  triage_at (case_heap (store w) 1) <> None /\
  case_triage_status_flow (Some 1) w = (Ok tt, w).
Proof.
  intros c w. split; [done |].
  apply (proj1 (stamp_steps Fixture.quiet 1 w)). done.
Defined.

(** * The escalation of a case to an incident *)

Lemma link_incident_incidents r incident s :
  incidents (case_heap (link_incident r incident s) r)
  = incidents (case_heap s r) ++ [incident].
Proof. unfold link_incident. cbn. by rewrite fn_lookup_alter. Qed.

(** With a linked incident, or without a mapped incident type, the
    escalation returns at once. *)
Lemma escalate_flow_guards env r w :
  incidents (case_heap (store w) r) <> [] \/
  incident_type (case_type (case_heap (store w) r)) = None ->
  case_to_incident_escalate_flow env (Some r) w = (Ok tt, w).
Proof.
  intros Hpre. unfold case_to_incident_escalate_flow. mstep.
  destruct (incidents (case_heap (store w) r)) as [| i l] eqn:Hincs.
  - destruct Hpre as [Hpre | Hpre]; [done |].
    mstep. rewrite Hpre. by mstep.
  - by mstep.
Qed.

(** Without a linked incident, with a mapped incident type and an
    assignee, the first thing the escalation does is to ask for the
    incident. *)
Lemma escalate_flow_creates (env : Env) r w itype a :
  let c := case_heap (store w) r in
  incidents c = [] ->
  incident_type (case_type c) = Some itype ->
  assignee c = Some a ->
  exists evs,
    trace (snd (case_to_incident_escalate_flow env (Some r) w))
    = trace w ++ EvCall (incident_create (escalation_incident c itype a)) :: evs.
Proof.
  intros c Hincs Htype Hassignee. subst c.
  unfold case_to_incident_escalate_flow. mstep.
  rewrite Hincs. mstep. rewrite Htype. mstep. rewrite Hassignee. mstep.
  change (incident_create _)
    with (incident_create
            (escalation_incident (case_heap (store w) r) itype a)).
  set (create := incident_create _).
  rewrite run_call.
  set (w1 := {| store := _; trace := trace w ++ [EvCall create] |}).
  destruct (fst (env _ create (store w))) as [i | e].
  - cbv beta iota.
    match goal with
    | |- context [snd (?rest w1)] =>
        assert (Hrest : stable (emits_only (fun _ => True) (trace w1)) rest)
          by stable_flow emits_leaf;
        destruct (Hrest w1 (emits_only_start _ w1)) as (evs & Htrace & _)
    end.
    exists evs. etrans; [exact Htrace |]. cbn [w1 trace].
    by rewrite <- app_assoc.
  - exists []. done.
Qed.

(** C6. The escalation creates an incident only when the case has no linked
    incident and its type is mapped to an incident type. When the case has
    a linked incident, or when its type is not mapped, the flow returns and
    leaves the world as it found it; so it does after a first escalation
    that left the case linked to an incident. When both conditions hold
    (and the case has an assignee, who becomes the reporter) the first call
    of the flow asks for the incident. *)
Theorem escalate_flow_one_shot (env : Env) r w :
  let c := case_heap (store w) r in
  let w1 := snd (case_to_incident_escalate_flow env (Some r) w) in
  (incidents c <> [] \/ incident_type (case_type c) = None ->
     case_to_incident_escalate_flow env (Some r) w = (Ok tt, w)) /\
  (forall incident_in,
     EvCall (incident_create incident_in) ∈ trace w1 ->
     EvCall (incident_create incident_in) ∉ trace w ->
     incidents c = [] /\ incident_type (case_type c) <> None) /\
  (incidents (case_heap (store w1) r) <> [] ->
     case_to_incident_escalate_flow env (Some r) w1 = (Ok tt, w1)) /\
  (forall itype a,
     incidents c = [] ->
     incident_type (case_type c) = Some itype ->
     assignee c = Some a ->
     exists evs,
       trace w1
       = trace w
         ++ EvCall (incident_create (escalation_incident c itype a)) :: evs).
Proof.
  intros c w1. split; [apply escalate_flow_guards |]. split; [| split].
  - intros incident_in Hin Hnotin.
    destruct (incidents c) as [| i l] eqn:Hincs.
    + destruct (incident_type (case_type c)) eqn:Htype; [done |].
      exfalso. apply Hnotin. subst w1.
      rewrite escalate_flow_guards in Hin; [done |]. by right.
    + exfalso. apply Hnotin. subst w1.
      rewrite escalate_flow_guards in Hin; [done |].
      left. fold c. by rewrite Hincs.
  - intros Hlinked. apply escalate_flow_guards. by left.
  - intros itype a. apply escalate_flow_creates.
Qed.

(** An escalation in the small world, where the flows of the incident
    package leave the case alone: the incident is created and linked, and
    a second escalation does nothing. *)
Lemma escalate_flow_one_shot_witness :
  let w := Fixture.world_of
             (Fixture.store_of Fixture.bare_case [] Fixture.all_plugins 9%Z) in
  let w1 := snd (case_to_incident_escalate_flow Fixture.quiet (Some 1) w) in
  incidents (case_heap (store w1) 1) = [7] /\
  case_to_incident_escalate_flow Fixture.quiet (Some 1) w1 = (Ok tt, w1).
Proof.
  intros w w1.
  assert (Hlinked : incidents (case_heap (store w1) 1) = [7]).
  { vm_compute. reflexivity. }
  split; [exact Hlinked |].
  apply (proj1 (proj2 (proj2 (escalate_flow_one_shot Fixture.quiet 1 w)))).
  intros Hnone.
  assert (Hnil : [7] = @nil PrimaryKey) by (rewrite <- Hlinked; exact Hnone).
  discriminate Hnil.
Defined.

(** ** A failure while the storage is shared with the incident *)

(** The claim of the specification fails: when the call that shares the
    storage with the tactical group of the new incident raises, the
    escalation raises the same exception; the last event is the call, and no
    audit record tells of the failure. *)
Lemma storage_sharing_failure_is_not_caught :
  let c := Fixture.resources None [] (Some Fixture.the_storage) None None
             Fixture.bare_case in
  let w := Fixture.world_of (Fixture.store_of c [] Fixture.all_plugins 9%Z) in
  let run := case_to_incident_escalate_flow
               (Fixture.failing (@Fixture.is_update_storage)) (Some 1) w in
  fst run = Raise Fixture.provider_down /\
  (exists incident_in,
     trace (snd run)
     = [EvCall (incident_create incident_in);
        EvCall (incident_create_flow 7);
        EvAudit "Dispatch Core App"
          "The case has been linked to incident incident-7 in the security project"
          1;
        EvCall (update_storage (Some 1) add_members
                  ["responders@example.com"])]).
Proof. split; [| eexists]; vm_compute; reflexivity. Qed.

(** C4, as the code has it. When the escalation has created the incident
    [i], linked it to the case and run the incident creation flow, and the
    call that shares the storage of the case with the tactical group of the
    incident raises, the exception is not caught: the escalation raises it
    to its caller, writes no audit record of the failure and does not
    write the record of the sharing. It does nothing after the failed
    call, so that the incident stays linked as it was: the store is the one
    the failed call left. *)
Theorem escalate_flow_storage_failure (env : Env) r w itype a i s1 j s2 sg g
    e s3 :
  let c := case_heap (store w) r in
  let incident_in := escalation_incident c itype a in
  let share := update_storage (Some r) add_members [group_email g] in
  incidents c = [] ->
  incident_type (case_type c) = Some itype ->
  assignee c = Some a ->
  env _ (incident_create incident_in) (store w) = (Ok i, s1) ->
  env _ (incident_create_flow i) (link_incident r i s1) = (Ok j, s2) ->
  storage (case_heap s2 r) = Some sg ->
  incident_tactical_group (incident_heap s2 i) = Some g ->
  env _ share s2 = (Raise e, s3) ->
  case_to_incident_escalate_flow env (Some r) w
  = (Raise e,
     {| store := s3;
        trace := trace w ++
          [EvCall (incident_create incident_in);
           EvCall (incident_create_flow i);
           EvAudit "Dispatch Core App"
             ("The case has been linked to incident "
              +:+ incident_name (incident_heap s2 i) +:+ " in the "
              +:+ project_name (incident_project (incident_heap s2 i))
              +:+ " project") r;
           EvCall share] |})
  /\ incidents (case_heap (link_incident r i s1) r)
     = incidents (case_heap s1 r) ++ [i].
Proof.
  intros c incident_in share Hincs Htype Hassignee Hcreate Hflow Hstorage
    Hgroup Hshare.
  split; [| apply link_incident_incidents].
  subst c. unfold case_to_incident_escalate_flow. mstep.
  rewrite Hincs. mstep. rewrite Htype. mstep. rewrite Hassignee. mstep.
  change (call env (incident_create _) w)
    with (call env (incident_create incident_in) w).
  rewrite run_call, Hcreate. cbn [fst snd]. mstep.
  unfold update_case. cbn [store trace].
  change (with_case_heap _ s1) with (link_incident r i s1).
  rewrite run_call. cbn [store trace]. rewrite Hflow. cbn [fst snd]. mstep.
  unfold record. cbn [store trace]. rewrite Hstorage. mstep.
  cbn [store]. rewrite Hgroup. mstep. fold share.
  rewrite run_call. cbn [store trace]. rewrite Hshare. cbn [fst snd].
  by rewrite <- !app_assoc.
Qed.

Lemma escalate_flow_storage_failure_witness :
  let c := Fixture.resources None [] (Some Fixture.the_storage) None None
             Fixture.bare_case in
  let w := Fixture.world_of (Fixture.store_of c [] Fixture.all_plugins 9%Z) in
  fst (case_to_incident_escalate_flow
         (Fixture.failing (@Fixture.is_update_storage)) (Some 1) w)
  = Raise Fixture.provider_down.
Proof.
  intros c w.
  pose proof (escalate_flow_storage_failure
                (Fixture.failing (@Fixture.is_update_storage)) 1 w
                Fixture.breach Fixture.alice 7 (store w) 7
                (link_incident 1 7 (store w)) Fixture.the_storage
                Fixture.responders Fixture.provider_down
                (link_incident 1 7 (store w))
                eq_refl eq_refl eq_refl eq_refl eq_refl eq_refl eq_refl
                eq_refl) as [Hrun _].
  exact (f_equal fst Hrun).
Defined.

(** * The participant flow *)

(** The claim of the specification fails when a service is given: for the
    oncall participant of service 7, already active on the case, the flow
    called with [service_id = 7] returns [None], not the participant. *)
Lemma add_or_reactivate_returns_none_for_service :
  let oncall := Fixture.person "oncall@example.com" 7 true in
  let w := Fixture.world_of
             (Fixture.store_of Fixture.bare_case [(1, oncall)]
                Fixture.all_plugins 9%Z) in
  participant_by_email (store w) 1 "oncall@example.com" = Some oncall /\
  active_roles oncall <> [] /\
  fst (case_add_or_reactivate_participant_flow Fixture.quiet
         "oncall@example.com" 1 ParticipantRoleType.participant 7 true w)
  = Ok None.
Proof. repeat split; vm_compute; (reflexivity || discriminate). Qed.

(** C7, as the code has it. When a participant for (case, email) exists
    and has active roles, the flow writes nothing and makes no call. It
    returns that participant, leaving the world as it found it, when no
    service is given ([service_id = 0]) or no participant of the case is
    bound to the service; when one is, it logs a debug line and returns
    [None]. *)
Theorem add_or_reactivate_active_participant env email r role service_id
    add_to_conversation w p :
  r ∈ case_rows (store w) ->
  participant_by_email (store w) r email = Some p ->
  active_roles p <> [] ->
  let run := case_add_or_reactivate_participant_flow env email r role
               service_id add_to_conversation w in
  (service_id = 0 \/ participant_by_service (store w) r service_id = None ->
     run = (Ok (Some p), w)) /\
  (service_id <> 0 ->
   participant_by_service (store w) r service_id <> None ->
     run = (Ok None,
            record (EvLog log_debug "Skipping resolved participant. Oncall service member already engaged.") w)).
Proof.
  intros Hrow Hfound Hactive run. subst run.
  unfold case_add_or_reactivate_participant_flow.
  rewrite run_bind, (run_get_found r w Hrow). cbv beta iota zeta.
  unfold get_by_case_id_and_service_id, get_by_case_id_and_email.
  split.
  - intros Hservice. destruct (decide (service_id ≠ 0)) as [Hne | He].
    + destruct Hservice as [-> | Hnone]; [done |].
      mstep. rewrite Hnone. mstep. rewrite Hfound.
      destruct (active_roles p); [done |]. by mstep.
    + mstep. rewrite Hfound. destruct (active_roles p); [done |]. by mstep.
  - intros Hne Hbound. rewrite decide_True by done. mstep.
    destruct (participant_by_service (store w) r service_id); [| done].
    by mstep.
Qed.

Lemma add_or_reactivate_active_participant_witness :
  let w := Fixture.world_of
             (Fixture.store_of Fixture.bare_case [(1, Fixture.alice)]
                Fixture.all_plugins 9%Z) in
  case_add_or_reactivate_participant_flow Fixture.quiet "alice@example.com" 1
    ParticipantRoleType.participant 0 true w
  = (Ok (Some Fixture.alice), w).
Proof.
  intros w.
  refine (proj1 (add_or_reactivate_active_participant Fixture.quiet
                   "alice@example.com" 1 ParticipantRoleType.participant 0
                   true w Fixture.alice _ _ _) _).
  - vm_compute. reflexivity.
  - vm_compute. reflexivity.
  - vm_compute. discriminate.
  - left. reflexivity.
Defined.

(** ** Adding participants to the conversation *)

(** Without a conversation plugin the push is skipped: the flow returns
    after one warning, or two when the case has no conversation either; no
    call is made and no audit record is written. *)
Lemma add_to_conversation_without_plugin env emails r w :
  let c := case_heap (store w) r in
  registry (store w) (project_id (project c)) plugin_conversation = None ->
  add_participants_to_conversation env emails (Some r) w
  = (Ok tt,
     record no_plugin_warning
       (if truthy (conversation c) then w
        else record no_conversation_warning w)).
Proof.
  intros c Hplugin. subst c. unfold add_participants_to_conversation. mstep.
  destruct (conversation (case_heap (store w) r)); mstep;
    rewrite ?store_record, Hplugin; by mstep.
Qed.

(** Without a conversation, but with a conversation plugin, the flow does
    not return after its warning: it goes on to [case.conversation.channel_id],
    which raises inside the [try], and the handler records the failure
    against the case. *)
Lemma add_to_conversation_without_conversation env emails r w p :
  let c := case_heap (store w) r in
  let reason := exn_message (NoneAttributeError "channel_id") in
  conversation c = None ->
  registry (store w) (project_id (project c)) plugin_conversation = Some p ->
  add_participants_to_conversation env emails (Some r) w
  = (Ok tt,
     record (EvLog log_exception reason)
       (record (EvAudit "Dispatch Core App"
                  ("Adding participant(s) to case conversation failed. Reason: "
                   +:+ reason) r)
          (record no_conversation_warning w))).
Proof.
  intros c reason Hconv Hplugin. subst c reason.
  unfold add_participants_to_conversation. mstep.
  rewrite Hconv. mstep. rewrite store_record, Hplugin.
  rewrite run_try_except. mstep. rewrite store_record, Hconv. by mstep.
Qed.

(** C9 at a failing input: a new case without conversation, in a project
    with a conversation plugin, to which bob is added with
    [add_to_conversation = True]. The flow returns bob, but after the
    warning it has written an audit record of a failure against the
    case. *)
Theorem add_to_conversation_records_error_without_conversation :
  let w := Fixture.world_of
             (Fixture.store_of Fixture.bare_case [] Fixture.all_plugins 9%Z) in
  let run := case_add_or_reactivate_participant_flow Fixture.quiet
               "bob@example.com" 1 ParticipantRoleType.participant 0 true w in
  status (case_heap (store w) 1) <> CaseStatus.closed /\
  conversation (case_heap (store w) 1) = None /\
  fst run = Ok (Some (Fixture.person "bob@example.com" 0 true)) /\
  trace (snd run)
  = [EvCall (add_participant "bob@example.com" (Some 1) 0
               ParticipantRoleType.participant);
     no_conversation_warning;
     EvAudit "Dispatch Core App"
       "Adding participant(s) to case conversation failed. Reason: 'NoneType' object has no attribute 'channel_id'"
       1;
     EvLog log_exception "'NoneType' object has no attribute 'channel_id'"].
Proof. repeat split; vm_compute; (reflexivity || discriminate). Qed.

(** * The deletion flow *)

(** The claim of the specification fails: for a case with a ticket, two
    groups and a storage, when the deletion of the ticket raises, the flow
    raises the same exception and the only deletion attempted is the one of
    the ticket. *)
Lemma ticket_failure_stops_deletion :
  let c := Fixture.resources (Some Fixture.the_ticket)
             [Fixture.responders; Fixture.observers]
             (Some Fixture.the_storage) None None Fixture.bare_case in
  let w := Fixture.world_of (Fixture.store_of c [] Fixture.all_plugins 9%Z) in
  let run := case_delete_flow (Fixture.failing (@Fixture.is_delete_ticket))
               (Some 1) w in
  fst run = Raise Fixture.provider_down /\
  trace (snd run) = [EvCall (delete_ticket Fixture.the_ticket 1)].
Proof. split; vm_compute; reflexivity. Qed.

Lemma run_call_returns_and_keeps env r {R} (c : Call R) w :
  returns_and_keeps env r ->
  exists v s', call env c w = (Ok v, {| store := s'; trace := trace w ++ [EvCall c] |})
               /\ case_heap s' r = case_heap (store w) r.
Proof.
  intros Henv. destruct (Henv R c (store w)) as (v & s' & Hc & Hkeep).
  exists v, s'. split; [| done]. rewrite run_call, Hc. done.
Qed.

Lemma delete_groups_run env r pid gs :
  returns_and_keeps env r ->
  forall w, project_id (project (case_heap (store w) r)) = pid ->
  exists s',
    for_each gs (fun group =>
      pid ← case_attr (Some r) "project" (project_id ∘ project);
      call env (delete_group group pid)) w
    = (Ok tt, {| store := s';
                 trace := trace w ++ map (fun g => EvCall (delete_group g pid)) gs |})
    /\ case_heap s' r = case_heap (store w) r.
Proof.
  intros Henv. induction gs as [| g gs IH]; intros w Hpid.
  - exists (store w). cbn. rewrite app_nil_r. by destruct w.
  - cbn [for_each]. mstep. rewrite Hpid.
    destruct (run_call_returns_and_keeps env r (delete_group g pid) w Henv)
      as ([] & s1 & -> & Hkeep).
    cbv beta iota.
    destruct (IH {| store := s1;
                    trace := trace w ++ [EvCall (delete_group g pid)] |})
      as (s2 & -> & Hkeep2).
    { cbn. by rewrite Hkeep. }
    exists s2. cbn [store trace] in *. split.
    + by rewrite <- app_assoc.
    + by rewrite Hkeep2.
Qed.

(** Whatever the calls do, when the flow raises it has stopped at a
    deletion that raised. *)
Lemma delete_flow_stopped env r :
  ends_with (stopped_at_deletion env) (case_delete_flow env (Some r)).
Proof. unfold case_delete_flow. stopped_flow. Qed.

(** The loop over the groups attempts their deletions one after the
    other, and stops at the first that raises. *)
Lemma delete_groups_attempts env r gs w :
  for_each gs (fun group =>
    pid ← case_attr (Some r) "project" (project_id ∘ project);
    call env (delete_group group pid)) w
  = attempt_each env
      (map (fun g s' => delete_group g (project_id (project (case_heap s' r))))
         gs) w.
Proof.
  revert w. induction gs as [| g gs IH]; intros w; [done |].
  cbn [for_each map attempt_each]. mstep. rewrite run_call.
  destruct (fst (env _ _ (store w))) as [[] | e]; [apply IH | done].
Qed.

(** C1, as the code has it. The flow is a sequence of attempts: the
    deletion of the ticket (if the case has one), then of every group the
    case has by then, then of the storage (if the case has one by then).
    It goes on to the next deletion only when the one before has returned:
    a deletion that raises, whichever it is, is the last call of the flow,
    and its exception leaves the flow. So when the deletion of the ticket
    raises, no group or storage deletion is attempted; and whenever the
    flow raises, the last thing it did is a deletion, which raised that
    exception. When all calls return and leave the case object as it is,
    all the deletions of the resources of the case are attempted, in this
    order. *)
Theorem delete_flow_stops_at_failure (env : Env) r w :
  let c := case_heap (store w) r in
  let pid := project_id (project c) in
  case_delete_flow env (Some r) w
  = attempt_stages env (deletion_stages r) w /\
  (forall tk e s',
     ticket c = Some tk ->
     env _ (delete_ticket tk pid) (store w) = (Raise e, s') ->
     case_delete_flow env (Some r) w
     = (Raise e, {| store := s';
                    trace := trace w ++ [EvCall (delete_ticket tk pid)] |})) /\
  (forall e w',
     case_delete_flow env (Some r) w = (Raise e, w') ->
     exists t R (c : Call R) s,
       trace w' = t ++ [EvCall c] /\ resource_deletion c = true /\
       env R c s = (Raise e, store w')) /\
  (returns_and_keeps env r ->
   exists s',
     case_delete_flow env (Some r) w
     = (Ok tt, {| store := s'; trace := trace w ++ deletions c |})).
Proof.
  intros c pid. split; [| split; [| split]].
  - unfold case_delete_flow, deletion_stages. cbn [attempt_stages]. mstep.
    fold c.
    assert (Hrest : forall w1 : World,
      (gs ← case_attr (Some r) "groups" groups;
       when (nonempty gs)
         (gs ← case_attr (Some r) "groups" groups;
          for_each gs (fun group =>
            pid ← case_attr (Some r) "project" (project_id ∘ project);
            call env (delete_group group pid)));;
       st ← case_attr (Some r) "storage" storage;
       match st with
       | Some sg =>
           pid ← case_attr (Some r) "project" (project_id ∘ project);
           call env (delete_storage sg pid)
       | None => mret tt
       end) w1
      = match attempt_each env
                (map (fun g s' =>
                        delete_group g (project_id (project (case_heap s' r))))
                   (groups (case_heap (store w1) r))) w1 with
        | (Ok _, w2) =>
            match
              attempt_each env
                match storage (case_heap (store w2) r) with
                | Some sg =>
                    [fun s' =>
                       delete_storage sg
                         (project_id (project (case_heap s' r)))]
                | None => []
                end w2
            with
            | (Ok _, w3) => (Ok tt, w3)
            | (Raise e, w3) => (Raise e, w3)
            end
        | (Raise e, w2) => (Raise e, w2)
        end).
    { intros w1. mstep.
      assert (Hloop :
        when (nonempty (groups (case_heap (store w1) r)))
          (gs ← case_attr (Some r) "groups" groups;
           for_each gs (fun group =>
             pid ← case_attr (Some r) "project" (project_id ∘ project);
             call env (delete_group group pid))) w1
        = attempt_each env
            (map (fun g s' =>
                    delete_group g (project_id (project (case_heap s' r))))
               (groups (case_heap (store w1) r))) w1).
      { destruct (groups (case_heap (store w1) r)) as [| g gs] eqn:Hgs;
          [done |].
        cbn [nonempty]. mstep. rewrite Hgs. apply delete_groups_attempts. }
      rewrite Hloop.
      destruct (attempt_each env _ w1) as [[[] | e] w2]; [| done].
      mstep. destruct (storage (case_heap (store w2) r)) as [sg |].
      - mstep. cbn [attempt_each]. rewrite run_call.
        by destruct (fst (env _ _ (store w2))) as [[] | e].
      - by mstep. }
    destruct (ticket c) as [tk |].
    + mstep. cbn [attempt_each]. rewrite run_call.
      destruct (fst (env _ _ (store w))) as [[] | e]; [| done].
      rewrite <- run_bind. apply Hrest.
    + mstep. cbn [attempt_each]. rewrite <- run_bind. apply Hrest.
  - intros tk e s' Hticket Hraise. unfold case_delete_flow. mstep.
    fold c. rewrite Hticket. mstep. fold c pid.
    rewrite run_call, Hraise. done.
  - intros e w' Hrun. pose proof (delete_flow_stopped env r w) as Hstop.
    rewrite Hrun in Hstop. by apply Hstop.
  - intros Henv. unfold case_delete_flow, deletions. mstep. fold c pid.
    (* the ticket *)
    assert (Hticket : exists s1,
      (match ticket c with
       | Some tk =>
           pid ← case_attr (Some r) "project" (project_id ∘ project);
           call env (delete_ticket tk pid)
       | None => mret tt
       end) w
      = (Ok tt, {| store := s1;
                   trace := trace w ++ match ticket c with
                                       | Some tk => [EvCall (delete_ticket tk pid)]
                                       | None => []
                                       end |})
      /\ case_heap s1 r = c).
    { destruct (ticket c) as [tk |].
      - mstep. fold c pid.
        destruct (run_call_returns_and_keeps env r (delete_ticket tk pid) w Henv)
          as ([] & s1 & -> & Hkeep).
        by exists s1.
      - exists (store w). mstep. rewrite app_nil_r. by destruct w. }
    destruct Hticket as (s1 & -> & Hs1). mstep. cbn [store]. rewrite Hs1.
    (* the groups *)
    set (w1 := {| store := s1; trace := _ |}).
    assert (Hgroups : exists s2,
      when (nonempty (groups c))
        (gs ← case_attr (Some r) "groups" groups;
         for_each gs (fun group =>
           pid ← case_attr (Some r) "project" (project_id ∘ project);
           call env (delete_group group pid))) w1
      = (Ok tt, {| store := s2;
                   trace := trace w1
                            ++ map (fun g => EvCall (delete_group g pid))
                                 (groups c) |})
      /\ case_heap s2 r = c).
    { destruct (groups c) as [| g gs] eqn:Hgs.
      - exists s1. mstep. cbn [map]. rewrite app_nil_r. done.
      - cbn [nonempty]. mstep. cbn [store w1]. rewrite Hs1, Hgs.
        destruct (delete_groups_run env r pid (g :: gs) Henv w1)
          as (s2 & -> & Hkeep).
        { cbn. by rewrite Hs1. }
        exists s2. split; [done |]. rewrite Hkeep. cbn. done. }
    destruct Hgroups as (s2 & -> & Hs2). mstep. cbn [store]. rewrite Hs2.
    (* the storage *)
    destruct (storage c) as [sg |].
    + mstep. cbn [store]. rewrite Hs2. fold pid.
      match goal with
      | |- context [call env ?c ?w2] =>
          destruct (run_call_returns_and_keeps env r c w2 Henv)
            as ([] & s3 & -> & Hkeep)
      end.
      exists s3. subst w1. cbn [trace]. by rewrite <- !app_assoc.
    + mstep. exists s2. subst w1. cbn [trace].
      by rewrite app_nil_r, <- !app_assoc.
Qed.

Lemma delete_flow_stops_at_failure_witness :
  let c := Fixture.resources (Some Fixture.the_ticket)
             [Fixture.responders; Fixture.observers]
             (Some Fixture.the_storage) None None Fixture.bare_case in
  let w := Fixture.world_of (Fixture.store_of c [] Fixture.all_plugins 9%Z) in
  (case_delete_flow (Fixture.failing (@Fixture.is_delete_ticket)) (Some 1) w
   = (Raise Fixture.provider_down,
      {| store := store w;
         trace := [EvCall (delete_ticket Fixture.the_ticket 1)] |})) /\
  (exists s',
     case_delete_flow Fixture.quiet (Some 1) w
     = (Ok tt,
        {| store := s';
           trace := [EvCall (delete_ticket Fixture.the_ticket 1);
                     EvCall (delete_group Fixture.responders 1);
                     EvCall (delete_group Fixture.observers 1);
                     EvCall (delete_storage Fixture.the_storage 1)] |})) /\
  (let group_fails R (call : Call R) :=
     match call with delete_group _ _ => true | _ => false end in
   case_delete_flow (Fixture.failing group_fails) (Some 1) w
   = (Raise Fixture.provider_down,
      {| store := store w;
         trace := [EvCall (delete_ticket Fixture.the_ticket 1);
                   EvCall (delete_group Fixture.responders 1)] |})).
Proof.
  intros c w. split; [| split]; [| | intros group_fails;
    exact (eq_trans
             (proj1 (delete_flow_stops_at_failure
                       (Fixture.failing group_fails) 1 w))
             eq_refl)].
  - apply (proj1 (proj2 (delete_flow_stops_at_failure
                           (Fixture.failing (@Fixture.is_delete_ticket)) 1 w))
             Fixture.the_ticket Fixture.provider_down (store w));
      reflexivity.
  - apply (proj2 (proj2 (proj2 (delete_flow_stops_at_failure Fixture.quiet 1
                                  w)))).
    intros R call s. exists (Fixture.reply call), s. done.
Defined.

(** * The provisioning flow *)


(** The members of a group are updated even with [create_resources =
    False]: for a case with a tactical group, the participant flow adds
    each participant to it. *)
Lemma provisioning_without_resources_updates_group :
  let c := Fixture.resources None [Fixture.responders] None None None
             Fixture.bare_case in
  let w := Fixture.world_of (Fixture.store_of c [] Fixture.all_plugins 9%Z) in
  trace (snd (case_create_resources_flow Fixture.quiet 1 [] [] None false w))
  = [EvCall (create_case_conversation (Some 1) None);
     EvAudit "Dispatch Core App" "Conversation added to case" 1;
     EvCall (add_participant "alice@example.com" (Some 1) 0
               ParticipantRoleType.participant);
     EvCall (update_group (Some 1) (Some Fixture.responders) add_member
               "alice@example.com");
     EvCall (add_case_participants (Some 1)
               ["alice@example.com"; "alice@example.com"]);
     EvAudit "Dispatch Core App" "Case participants added to conversation." 1].
Proof. vm_compute. reflexivity. Qed.

Section Provisioning.

Variable env : Env.


(** C8. On a case that already has a group, a storage and a document, the
    provisioning flow run with [create_resources = True] makes no call that
    creates a group, a storage or a document. Its first call is the update
    of the document; when that call returns, the next one is the update of
    the ticket. *)
Theorem create_resources_flow_skips_creation r individual_participants
    team_participants conversation_target w g gs sg d :
  let c := case_heap (store w) r in
  let update := update_document (Some d) (project_id (project c)) in
  let run := case_create_resources_flow env r individual_participants
               team_participants conversation_target true w in
  r ∈ case_rows (store w) ->
  groups c = g :: gs ->
  storage c = Some sg ->
  case_document c = Some d ->
  exists evs,
    trace (snd run) = trace w ++ EvCall update :: evs
    /\ Forall (fun ev => resource_creation ev = false) evs
    /\ (fst (env _ update (store w)) = Ok tt ->
        exists evs', evs = EvCall (update_case_ticket (Some r)) :: evs').
Proof.
  intros c update run Hrow Hgroups Hstorage Hdocument. subst c run.
  unfold case_create_resources_flow.
  rewrite run_bind, (run_get_found r w Hrow). mstep.
  rewrite Hgroups. mstep. rewrite Hstorage. mstep. rewrite Hdocument. mstep.
  rewrite Hdocument. fold update. rewrite run_call.
  destruct (fst (env _ update (store w))) as [[] | e] eqn:Hupdate.
  - mstep. rewrite run_call. cbn [store trace].
    set (ticket_update := update_case_ticket (Some r)).
    match goal with
    | |- context [fst (env _ ticket_update ?s)] =>
        destruct (fst (env _ ticket_update s)) as [[] | e]
    end.
    + mstep.
      match goal with
      | |- context [try_except ?body ?handler ?w1] =>
          assert (Hstable : stable (emits_only no_resource_call (trace w1))
                              (try_except body handler))
            by stable_flow ltac:(first
                 [ emits_leaf | apply add_or_reactivate_events ]);
          destruct (Hstable w1 (emits_only_start _ w1))
            as (evs & Htrace & Hall)
      end.
      cbn [trace] in Htrace.
      exists (EvCall ticket_update :: evs). split; [| split].
      * etrans; [exact Htrace |]. by rewrite <- !app_assoc.
      * constructor; [done |].
        eapply Forall_impl; [apply resource_creation_call | exact Hall].
      * eauto.
    + exists [EvCall ticket_update]. cbn [snd trace].
      rewrite <- app_assoc. repeat split; eauto.
  - exists []. cbn [snd trace]. repeat split; [constructor | discriminate].
Qed.

End Provisioning.


Lemma create_resources_flow_skips_creation_witness :
  let c := Fixture.resources (Some Fixture.the_ticket) [Fixture.responders]
             (Some Fixture.the_storage) (Some Fixture.the_document) None
             Fixture.bare_case in
  let w := Fixture.world_of (Fixture.store_of c [] Fixture.all_plugins 9%Z) in
  exists evs,
    trace (snd (case_create_resources_flow Fixture.quiet 1 [] [] None true w))
    = EvCall (update_document (Some Fixture.the_document) 1) :: evs
    /\ Forall (fun ev => resource_creation ev = false) evs
    /\ (Ok tt = Ok tt ->
        exists evs', evs = EvCall (update_case_ticket (Some 1)) :: evs').
Proof.
  intros c w.
  refine (create_resources_flow_skips_creation Fixture.quiet 1 [] [] None w
            Fixture.responders [] Fixture.the_storage Fixture.the_document
            _ _ _ _).
  - vm_compute. reflexivity.
  - reflexivity.
  - reflexivity.
  - reflexivity.
Defined.

(** * The update flow and the conversation plugin *)

Lemma conversation_without_plugin_update r r' f s :
  (forall c, conversation (f c) = conversation c /\ project (f c) = project c) ->
  conversation_without_plugin r s ->
  conversation_without_plugin r
    (with_case_heap (alter f r' (case_heap s)) s).
Proof.
  intros Hf (Hrow & Hconv & Hplugin). unfold conversation_without_plugin.
  cbn [case_rows case_heap registry with_case_heap].
  destruct (decide (r' = r)) as [-> | Hne].
  - rewrite fn_lookup_alter. destruct (Hf (case_heap s r)) as [-> ->]. done.
  - by rewrite fn_lookup_alter_ne.
Qed.

Section UpdateFlow.

Variable env : Env.
Variable r : PrimaryKey.

(** The calls leave the case with its conversation and the project without
    the plugin. *)
Hypothesis env_keeps :
  forall R (c : Call R) s,
    conversation_without_plugin r s ->
    conversation_without_plugin r (snd (env R c s)).

Let J (w : World) : Prop := conversation_without_plugin r (store w).

Ltac keeps_leaf :=
  first [ intros ? ? ?; apply conversation_without_plugin_update;
            [by intros ? | assumption]
        | intros ? ?; apply env_keeps; assumption
        | intros; assumption ].

Lemma add_participants_to_conversation_keeps emails case :
  stable J (add_participants_to_conversation env emails case).
Proof. unfold add_participants_to_conversation. stable_flow keeps_leaf. Qed.

Lemma add_or_reactivate_keeps email case_id role service_id atc :
  stable J (case_add_or_reactivate_participant_flow env email case_id role
              service_id atc).
Proof.
  unfold case_add_or_reactivate_participant_flow.
  stable_flow ltac:(first [ apply add_participants_to_conversation_keeps
                          | keeps_leaf ]).
Qed.

Lemma case_assign_role_flow_keeps case_id email role :
  stable J (case_assign_role_flow env case_id email role).
Proof.
  unfold case_assign_role_flow.
  stable_flow ltac:(first [ apply add_or_reactivate_keeps | keeps_leaf ]).
Qed.

Lemma case_triage_status_flow_keeps case :
  stable J (case_triage_status_flow case).
Proof. unfold case_triage_status_flow. stable_flow keeps_leaf. Qed.

Lemma case_closed_status_flow_keeps case :
  stable J (case_closed_status_flow case).
Proof. unfold case_closed_status_flow. stable_flow keeps_leaf. Qed.

Lemma case_to_incident_escalate_flow_keeps case :
  stable J (case_to_incident_escalate_flow env case).
Proof. unfold case_to_incident_escalate_flow. stable_flow keeps_leaf. Qed.

Lemma case_escalated_status_flow_keeps case :
  stable J (case_escalated_status_flow env case).
Proof.
  unfold case_escalated_status_flow.
  stable_flow ltac:(first [ apply case_to_incident_escalate_flow_keeps
                          | keeps_leaf ]).
Qed.

Lemma dispatcher_keeps case current previous :
  stable J (case_status_transition_flow_dispatcher env case current previous).
Proof.
  unfold case_status_transition_flow_dispatcher.
  stable_flow ltac:(first [ apply case_triage_status_flow_keeps
                          | apply case_closed_status_flow_keeps
                          | apply case_escalated_status_flow_keeps
                          | keeps_leaf ]).
Qed.

(** Without the plugin, [update_conversation] stops at [plugin.instance]:
    it raises without a call and without an audit record. *)
Lemma update_conversation_without_plugin w :
  registry (store w) (project_id (project (case_heap (store w) r)))
    plugin_conversation = None ->
  update_conversation env (Some r) w
  = (Raise (NoneAttributeError "instance"), w).
Proof.
  intros Hplugin. unfold update_conversation. mstep. rewrite Hplugin.
  by mstep.
Qed.

(** The update flow of a case with a conversation does not return. *)
Lemma case_update_flow_raises previous_case reporter_email assignee_email :
  raises J (case_update_flow env r previous_case reporter_email
              assignee_email).
Proof.
  intros w HJ. unfold case_update_flow.
  rewrite run_bind, (run_get_found r w (proj1 HJ)). cbv beta iota.
  revert w HJ.
  do 12 (apply raises_bind;
         [ stable_flow ltac:(first [ apply case_assign_role_flow_keeps
                                   | apply dispatcher_keeps
                                   | keeps_leaf ])
         | intros ? ]).
  intros w (Hrow & Hconv & Hplugin). mstep.
  destruct (conversation (case_heap (store w) r)); [| done].
  mstep. rewrite update_conversation_without_plugin by done.
  by eexists.
Qed.

End UpdateFlow.

(** C10. For a case that has a conversation, in a project without an
    active conversation plugin, the conversation step of the update flow
    does not skip: [update_conversation] reads [plugin.instance] of the
    absent plugin and raises an [AttributeError], before any call to the
    plugin and before the audit record. So the update flow of such a case
    cannot return: as long as the calls it makes leave the conversation of
    the case and the plugins of the project as they are, it raises. *)
Theorem update_flow_needs_conversation_plugin (env : Env) r w :
  let c := case_heap (store w) r in
  registry (store w) (project_id (project c)) plugin_conversation = None ->
  update_conversation env (Some r) w
  = (Raise (NoneAttributeError "instance"), w)
  /\ (r ∈ case_rows (store w) ->
      conversation c <> None ->
      (forall R (call : Call R) s,
         conversation_without_plugin r s ->
         conversation_without_plugin r (snd (env R call s))) ->
      forall previous_case reporter_email assignee_email,
      exists e,
        fst (case_update_flow env r previous_case reporter_email
               assignee_email w) = Raise e).
Proof.
  intros c Hplugin. split.
  - by apply update_conversation_without_plugin.
  - intros Hrow Hconv Henv previous_case reporter_email assignee_email.
    by apply (case_update_flow_raises env r Henv).
Qed.

(** The update of a case with all its resources, in a project without
    conversation plugin: the flow raises the [AttributeError] after the
    roles, the ticket and the group were updated. *)
Lemma update_flow_needs_conversation_plugin_witness :
  let c := Fixture.resources (Some Fixture.the_ticket) [Fixture.responders]
             (Some Fixture.the_storage) (Some Fixture.the_document)
             (Some Fixture.the_thread) Fixture.bare_case in
  let w := Fixture.world_of
             (Fixture.store_of c [(1, Fixture.alice)]
                Fixture.no_conversation_plugin 9%Z) in
  update_conversation Fixture.quiet (Some 1) w
  = (Raise (NoneAttributeError "instance"), w)
  /\ exists e,
       fst (case_update_flow Fixture.quiet 1
              {| read_status := CaseStatus.new |}
              "alice@example.com" "alice@example.com" w) = Raise e.
Proof.
  intros c w.
  destruct (update_flow_needs_conversation_plugin Fixture.quiet 1 w eq_refl)
    as [Hstep Hflow].
  split; [exact Hstep |].
  apply Hflow.
  - vm_compute. reflexivity.
  - discriminate.
  - intros R call s H. exact H.
Defined.

(** * Further properties of the flows *)

(** ** The participants of a case *)

(** A restricted case, or a project without participant plugin, resolves
    to no participant, without a call and without an audit record. For an
    open case with the plugin, the flow returns what the plugin returns and
    records the resolution under the title of the plugin; what the plugin
    raises leaves the flow. *)
Theorem get_case_participants_resolution (env : Env) r w :
  let c := case_heap (store w) r in
  let pid := project_id (project c) in
  (visibility c <> Visibility.open \/
   registry (store w) pid plugin_participant = None ->
   get_case_participants env (Some r) w = (Ok ([], []), w)) /\
  (forall p,
     visibility c = Visibility.open ->
     registry (store w) pid plugin_participant = Some p ->
     get_case_participants env (Some r) w
     = match env _ (plugin_get (Some r) pid) (store w) with
       | (Ok contacts, s') =>
           (Ok contacts,
            {| store := s';
               trace := trace w ++
                 [EvCall (plugin_get (Some r) pid);
                  EvAudit (plugin_title p) "Case participants resolved" r] |})
       | (Raise e, s') =>
           (Raise e,
            {| store := s';
               trace := trace w ++ [EvCall (plugin_get (Some r) pid)] |})
       end).
Proof.
  intros c pid. subst c pid. split.
  - intros Hskip. unfold get_case_participants. mstep.
    destruct (decide _) as [Hopen | Hrestricted]; [| by mstep].
    destruct Hskip as [Hskip | Hnone]; [done |].
    mstep. rewrite Hnone. by mstep.
  - intros p Hopen Hplugin. unfold get_case_participants. mstep.
    rewrite decide_True by done. mstep. rewrite Hplugin. mstep.
    rewrite run_call.
    destruct (env _ _ (store w)) as [[contacts | e] s']; cbn [fst snd];
      [| done].
    mstep. unfold record. cbn [store trace]. by rewrite <- app_assoc.
Qed.

Lemma get_case_participants_resolution_witness :
  let c := Fixture.resources None [] None None None Fixture.bare_case in
  let w := Fixture.world_of
             (Fixture.store_of c [] (fun _ => None) 9%Z) in
  get_case_participants Fixture.quiet (Some 1) w = (Ok ([], []), w).
Proof.
  intros c w.
  apply (proj1 (get_case_participants_resolution Fixture.quiet 1 w)).
  right. reflexivity.
Defined.

(** ** The push to the conversation *)

(** For a case that exists, no exception that derives from [Exception]
    leaves the push to the conversation, and the push returns whenever the
    calls raise no other exception. When the plugin raises an exception
    that derives from [Exception], its message is recorded against the
    case and logged, and the push returns; an exception that does not
    ([KeyboardInterrupt], [SystemExit]) leaves the push right after the
    call, with nothing recorded. *)
Theorem add_participants_to_conversation_catches_exceptions (env : Env)
    emails r w :
  let run := add_participants_to_conversation env emails (Some r) w in
  (forall e, fst run = Raise e -> exn_is_exception e = false) /\
  (raises_exceptions_only env -> fst run = Ok tt) /\
  (forall p conv e s',
     let push := plugin_add_to_thread (channel_id conv) (thread_id conv)
                   emails in
     conversation (case_heap (store w) r) = Some conv ->
     registry (store w) (project_id (project (case_heap (store w) r)))
       plugin_conversation = Some p ->
     env _ push (store w) = (Raise e, s') ->
     run
     = if exn_is_exception e
       then
         (Ok tt,
          {| store := s';
             trace := trace w ++
               [EvCall push;
                EvAudit "Dispatch Core App"
                  ("Adding participant(s) to case conversation failed. Reason: "
                   +:+ exn_message e) r;
                EvLog log_exception (exn_message e)] |})
       else (Raise e, {| store := s'; trace := trace w ++ [EvCall push] |})).
Proof.
  intros run.
  assert (Hcatches : forall e, fst run = Raise e -> exn_is_exception e = false).
  { intros e. subst run. unfold add_participants_to_conversation. mstep.
    destruct (conversation (case_heap (store w) r)); mstep;
      rewrite ?store_record;
      (destruct (registry (store w) _ plugin_conversation); [| by mstep]);
      apply try_except_catches; intros e' w'; by mstep. }
  split; [exact Hcatches | split].
  - intros Henv.
    pose proof (add_participants_to_conversation_ordinary env emails (Some r)
                  Henv w) as Hordinary.
    fold run in Hordinary. destruct (fst run) as [[] | e]; [done |].
    specialize (Hordinary e eq_refl). specialize (Hcatches e eq_refl).
    congruence.
  - intros p conv e s' push Hconv Hplugin Hraise. subst run push.
    unfold add_participants_to_conversation. mstep.
    rewrite Hconv. mstep. rewrite Hplugin. rewrite run_try_except. mstep.
    rewrite Hconv. mstep. rewrite Hconv. mstep.
    rewrite run_call, Hraise. cbn [fst snd].
    destruct (exn_is_exception e); [| done]. mstep.
    unfold record. cbn [store trace]. by rewrite <- !app_assoc.
Qed.

Lemma add_participants_to_conversation_catches_exceptions_witness :
  let c := Fixture.resources None [] None None (Some Fixture.the_thread)
             Fixture.bare_case in
  let w := Fixture.world_of (Fixture.store_of c [] Fixture.all_plugins 9%Z) in
  let fails := fun R (c : Call R) =>
                 match c with plugin_add_to_thread _ _ _ => true | _ => false end in
  fst (add_participants_to_conversation (Fixture.failing fails)
         ["bob@example.com"] (Some 1) w) = Ok tt /\
  add_participants_to_conversation (Fixture.failing fails)
    ["bob@example.com"] (Some 1) w
  = (Ok tt,
     {| store := store w;
        trace :=
          [EvCall (plugin_add_to_thread "C01" "1700000000.000100"
                     ["bob@example.com"]);
           EvAudit "Dispatch Core App"
             ("Adding participant(s) to case conversation failed. Reason: "
              +:+ "503 Service Unavailable") 1;
           EvLog log_exception "503 Service Unavailable"] |}).
Proof.
  intros c w fails.
  destruct (add_participants_to_conversation_catches_exceptions
              (Fixture.failing fails) ["bob@example.com"] 1 w)
    as (_ & Hok & Hrecorded).
  split.
  - apply Hok. intros R call s e. unfold Fixture.failing.
    destruct (fails R call); [by intros [= <-] | done].
  - exact (Hrecorded {| plugin_title := "chat" |} Fixture.the_thread
             Fixture.provider_down (store w) eq_refl eq_refl eq_refl).
Defined.

(** ** A case that is not found *)

Lemma run_get_missing cid w :
  cid ∉ case_rows (store w) -> get cid w = (Ok None, w).
Proof. intros H. unfold get, read. by rewrite decide_False. Qed.

(** When no case has the key, the flows that load the case raise an
    [AttributeError] at their first access to it, before any call, any
    write and any record; in the provisioning flow this access is outside
    the [try], so that the error is not caught. The participant flow
    looks for a participant of the oncall service before its first access
    to the case: when a service is given and the key has a participant of
    that service, it logs that it skips and returns [None]; otherwise it
    raises like the others. *)
Theorem flows_on_missing_case (env : Env) cid w :
  cid ∉ case_rows (store w) ->
  (forall previous_case reporter_email assignee_email,
     case_update_flow env cid previous_case reporter_email assignee_email w
     = (Raise (NoneAttributeError "id"), w)) /\
  (forall email role,
     case_assign_role_flow env cid email role w
     = (Raise (NoneAttributeError "id"), w)) /\
  (forall individual_participants team_participants target create_resources,
     case_create_resources_flow env cid individual_participants
       team_participants target create_resources w
     = (Raise (NoneAttributeError "assignee"), w)) /\
  (forall email role service_id add_to_conversation,
     case_add_or_reactivate_participant_flow env email cid role service_id
       add_to_conversation w
     = match
         (if decide (service_id ≠ 0)
          then participant_by_service (store w) cid service_id
          else None)
       with
       | Some _ =>
           (Ok None,
            record (EvLog log_debug "Skipping resolved participant. Oncall service member already engaged.") w)
       | None => (Raise (NoneAttributeError "id"), w)
       end) /\
  (forall incident_id,
     case_to_incident_endpoint_escalate_flow env cid incident_id w
     = (Raise (NoneAttributeError "triage_at"), w)).
Proof.
  intros Hmissing. repeat split; intros.
  - unfold case_update_flow.
    rewrite run_bind, (run_get_missing _ _ Hmissing). by mstep.
  - unfold case_assign_role_flow.
    rewrite run_bind, (run_get_missing _ _ Hmissing). by mstep.
  - unfold case_create_resources_flow.
    rewrite run_bind, (run_get_missing _ _ Hmissing). by mstep.
  - unfold case_add_or_reactivate_participant_flow.
    rewrite run_bind, (run_get_missing _ _ Hmissing). cbv beta iota zeta.
    destruct (decide (service_id ≠ 0)); [| by mstep].
    unfold get_by_case_id_and_service_id. mstep.
    destruct (participant_by_service (store w) cid service_id); by mstep.
  - unfold case_to_incident_endpoint_escalate_flow, case_triage_status_flow.
    rewrite run_bind, (run_get_missing _ _ Hmissing). by mstep.
Qed.

Lemma flows_on_missing_case_witness :
  let w := Fixture.world_of
             (Fixture.store_of Fixture.bare_case [] Fixture.all_plugins 9%Z) in
  case_assign_role_flow Fixture.quiet 2 "bob@example.com"
    ParticipantRoleType.reporter w
  = (Raise (NoneAttributeError "id"), w).
Proof.
  intros w.
  refine (proj1 (proj2 (flows_on_missing_case Fixture.quiet 2 w _)) _ _).
  vm_compute. intros H. discriminate H.
Defined.

(** The creation flow asks for the ticket before its first access to the
    case: when no case has the key, [create_case_ticket] is called with
    [None], and when that call returns the flow raises the
    [AttributeError] of [case.visibility]. *)
Theorem case_new_create_flow_on_missing_case (env : Env) cid target
    service_id create_resources w :
  cid ∉ case_rows (store w) ->
  case_new_create_flow env cid target service_id create_resources w
  = (match fst (env _ (create_case_ticket None) (store w)) with
     | Ok _ => Raise (NoneAttributeError "visibility")
     | Raise e => Raise e
     end,
     {| store := snd (env _ (create_case_ticket None) (store w));
        trace := trace w ++ [EvCall (create_case_ticket None)] |}).
Proof.
  intros Hmissing. unfold case_new_create_flow.
  rewrite run_bind, (run_get_missing _ _ Hmissing). cbv beta iota.
  rewrite run_bind, run_call.
  destruct (fst (env _ _ (store w))) as [[] | e]; [| done].
  unfold get_case_participants. by mstep.
Qed.

Lemma case_new_create_flow_on_missing_case_witness :
  let w := Fixture.world_of
             (Fixture.store_of Fixture.bare_case [] Fixture.all_plugins 9%Z) in
  case_new_create_flow Fixture.quiet 2 None None true w
  = (Raise (NoneAttributeError "visibility"),
     {| store := store w; trace := [EvCall (create_case_ticket None)] |}).
Proof.
  intros w.
  refine (case_new_create_flow_on_missing_case Fixture.quiet 2 None None true
            w _).
  vm_compute. intros H. discriminate H.
Defined.

(** ** An escalation without assignee *)

(** The escalation makes the assignee of the case the reporter of the
    incident. For a case without assignee that is escalated for the first
    time to a mapped incident type, it raises the [AttributeError] of
    [case.assignee.individual] before any call; the escalated step has
    stamped and committed [escalated_at] by then. *)
Theorem escalation_without_assignee (env : Env) r w itype :
  let c := case_heap (store w) r in
  incidents c = [] ->
  incident_type (case_type c) = Some itype ->
  assignee c = None ->
  case_to_incident_escalate_flow env (Some r) w
  = (Raise (NoneAttributeError "individual"), w) /\
  case_escalated_status_flow env (Some r) w
  = (Raise (NoneAttributeError "individual"),
     record (EvCommit r)
       (update_case r (set_escalated_at (Some (now (store w)))) w)).
Proof.
  intros c Hincs Htype Hassignee. subst c.
  assert (Hraise : forall w0,
    incidents (case_heap (store w0) r) = [] ->
    incident_type (case_type (case_heap (store w0) r)) = Some itype ->
    assignee (case_heap (store w0) r) = None ->
    case_to_incident_escalate_flow env (Some r) w0
    = (Raise (NoneAttributeError "individual"), w0)).
  { intros w0 H1 H2 H3. unfold case_to_incident_escalate_flow. mstep.
    rewrite H1. mstep. rewrite H2. mstep. rewrite H3. by mstep. }
  split; [by apply Hraise |].
  unfold case_escalated_status_flow. mstep. apply Hraise;
    rewrite store_record, case_heap_update_case; done.
Qed.

Lemma escalation_without_assignee_witness :
  let c := {| name := "case-2"; title := "spam"; description := "";
              status := CaseStatus.triage; visibility := Visibility.open;
              triage_at := Some 3%Z; escalated_at := None; closed_at := None;
              project := Fixture.security;
              case_type := case_type Fixture.bare_case;
              case_priority := {| page_assignee := false |};
              assignee := None;
              ticket := None; groups := []; tactical_group := None;
              storage := None; case_document := None; conversation := None;
              incidents := [] |} in
  let w := Fixture.world_of (Fixture.store_of c [] Fixture.all_plugins 9%Z) in
  case_to_incident_escalate_flow Fixture.quiet (Some 1) w
  = (Raise (NoneAttributeError "individual"), w).
Proof.
  intros c w.
  exact (proj1 (escalation_without_assignee Fixture.quiet 1 w Fixture.breach
                  eq_refl eq_refl eq_refl)).
Defined.

(** ** The role of a participant who is active already *)

Lemma add_or_reactivate_short_circuit env email r role add_to_conversation
    w p :
  r ∈ case_rows (store w) ->
  participant_by_email (store w) r email = Some p ->
  active_roles p <> [] ->
  case_add_or_reactivate_participant_flow env email r role 0
    add_to_conversation w
  = (Ok (Some p), w).
Proof.
  intros Hrow Hfound Hactive.
  unfold case_add_or_reactivate_participant_flow.
  rewrite run_bind, (run_get_found r w Hrow). cbv beta iota zeta.
  rewrite decide_False by (intros H; by apply H).
  unfold get_by_case_id_and_email. mstep. rewrite Hfound.
  destruct (active_roles p); [done |]. by mstep.
Qed.

(** For a participant of the case who has an active role, the role
    assignment flow comes down to its one call to [assign_role_flow]:
    nothing is added, reactivated or pushed before it. *)
Theorem case_assign_role_flow_active_participant (env : Env) r email role w p :
  r ∈ case_rows (store w) ->
  participant_by_email (store w) r email = Some p ->
  active_roles p <> [] ->
  case_assign_role_flow env r email role w
  = call env (assign_role_flow (Some r) email role) w.
Proof.
  intros Hrow Hfound Hactive. unfold case_assign_role_flow.
  rewrite run_bind, (run_get_found r w Hrow). mstep.
  by rewrite (add_or_reactivate_short_circuit _ _ _ _ _ _ _ Hrow Hfound Hactive).
Qed.

Lemma case_assign_role_flow_active_participant_witness :
  let w := Fixture.world_of
             (Fixture.store_of Fixture.bare_case [(1, Fixture.alice)]
                Fixture.all_plugins 9%Z) in
  case_assign_role_flow Fixture.quiet 1 "alice@example.com"
    ParticipantRoleType.assignee w
  = (Ok tt,
     {| store := store w;
        trace := [EvCall (assign_role_flow (Some 1) "alice@example.com"
                            ParticipantRoleType.assignee)] |}).
Proof.
  intros w.
  refine (case_assign_role_flow_active_participant Fixture.quiet 1
            "alice@example.com" ParticipantRoleType.assignee w Fixture.alice
            _ _ _).
  - vm_compute. reflexivity.
  - vm_compute. reflexivity.
  - vm_compute. discriminate.
Defined.

(** ** What the deletion flow does not do *)

Ltac deletion_leaf :=
  intros;
  first [ apply emits_only_call; [reflexivity | assumption] ].

(** The deletion flow makes deletion calls and nothing else. Every event
    of its run is a deletion call: it commits nothing and records nothing.
    It writes nothing itself: whatever holds of the store and is kept by
    the deletion calls holds of the store the flow leaves. For a case
    without ticket, group and storage it does nothing at all. *)
Theorem case_delete_flow_only_deletes (env : Env) case w :
  (exists evs,
     trace (snd (case_delete_flow env case w)) = trace w ++ evs /\
     Forall (fun ev => deletion_event ev = true) evs) /\
  (forall P : Store -> Prop,
     (forall R (c : Call R) s,
        resource_deletion c = true -> P s -> P (snd (env R c s))) ->
     P (store w) ->
     P (store (snd (case_delete_flow env case w)))) /\
  (forall r,
     case = Some r ->
     ticket (case_heap (store w) r) = None ->
     groups (case_heap (store w) r) = [] ->
     storage (case_heap (store w) r) = None ->
     case_delete_flow env case w = (Ok tt, w)).
Proof.
  split; [| split].
  - refine ((_ : stable (emits_only _ (trace w)) _) w (emits_only_start _ w)).
    unfold case_delete_flow. stable_flow deletion_leaf.
  - intros P Hkept Hstart.
    refine ((_ : stable (fun w' => P (store w')) _) w Hstart).
    unfold case_delete_flow.
    stable_flow ltac:(intros w' Hw'; apply Hkept; [reflexivity | exact Hw']).
  - intros r -> Hticket Hgroups Hstorage. unfold case_delete_flow. mstep.
    rewrite Hticket. mstep. rewrite Hgroups. mstep. rewrite Hstorage.
    by mstep.
Qed.

Lemma case_delete_flow_only_deletes_witness :
  let w := Fixture.world_of
             (Fixture.store_of Fixture.bare_case [] Fixture.all_plugins 9%Z) in
  let c := Fixture.resources (Some Fixture.the_ticket) [Fixture.responders]
             (Some Fixture.the_storage) None None Fixture.bare_case in
  let w1 := Fixture.world_of (Fixture.store_of c [] Fixture.all_plugins 9%Z) in
  case_delete_flow Fixture.quiet (Some 1) w = (Ok tt, w) /\
  store (snd (case_delete_flow Fixture.quiet (Some 1) w1)) = store w1.
Proof.
  intros w c w1. split.
  - exact (proj2 (proj2 (case_delete_flow_only_deletes Fixture.quiet (Some 1)
                           w)) 1 eq_refl eq_refl eq_refl eq_refl).
  - exact (proj1 (proj2 (case_delete_flow_only_deletes Fixture.quiet (Some 1)
                           w1)) (fun s => s = store w1)
             (fun R call s _ Hs => Hs) eq_refl).
Defined.

(** ** What the flows never call *)

Section Calm.

Variable env : Env.
Variable t0 : list Event.

Let calm (ev : Event) : Prop := upheaval ev = false.

Lemma add_participants_to_conversation_calm emails case :
  stable (emits_only calm t0) (add_participants_to_conversation env emails case).
Proof. unfold add_participants_to_conversation. stable_flow emits_leaf. Qed.

Lemma add_or_reactivate_calm email case_id role service_id atc :
  stable (emits_only calm t0)
    (case_add_or_reactivate_participant_flow env email case_id role
       service_id atc).
Proof.
  unfold case_add_or_reactivate_participant_flow.
  stable_flow ltac:(first [ emits_leaf
                          | apply add_participants_to_conversation_calm ]).
Qed.

Lemma case_assign_role_flow_calm case_id email role :
  stable (emits_only calm t0) (case_assign_role_flow env case_id email role).
Proof.
  unfold case_assign_role_flow.
  stable_flow ltac:(first [ emits_leaf | apply add_or_reactivate_calm ]).
Qed.

Lemma get_case_participants_calm case :
  stable (emits_only calm t0) (get_case_participants env case).
Proof. unfold get_case_participants. stable_flow emits_leaf. Qed.

Lemma case_triage_status_flow_calm case :
  stable (emits_only calm t0) (case_triage_status_flow case).
Proof. unfold case_triage_status_flow. stable_flow emits_leaf. Qed.

Lemma case_closed_status_flow_calm case :
  stable (emits_only calm t0) (case_closed_status_flow case).
Proof. unfold case_closed_status_flow. stable_flow emits_leaf. Qed.

Lemma case_to_incident_escalate_flow_calm case :
  stable (emits_only calm t0) (case_to_incident_escalate_flow env case).
Proof. unfold case_to_incident_escalate_flow. stable_flow emits_leaf. Qed.

Lemma case_escalated_status_flow_calm case :
  stable (emits_only calm t0) (case_escalated_status_flow env case).
Proof.
  unfold case_escalated_status_flow.
  stable_flow ltac:(first [ emits_leaf
                          | apply case_to_incident_escalate_flow_calm ]).
Qed.

Lemma dispatcher_calm case current previous :
  stable (emits_only calm t0)
    (case_status_transition_flow_dispatcher env case current previous).
Proof.
  unfold case_status_transition_flow_dispatcher.
  stable_flow ltac:(first [ emits_leaf
                          | apply case_triage_status_flow_calm
                          | apply case_closed_status_flow_calm
                          | apply case_escalated_status_flow_calm ]).
Qed.

Lemma update_conversation_calm case :
  stable (emits_only calm t0) (update_conversation env case).
Proof. unfold update_conversation. stable_flow emits_leaf. Qed.

Lemma case_update_flow_calm case_id previous_case reporter_email
    assignee_email :
  stable (emits_only calm t0)
    (case_update_flow env case_id previous_case reporter_email assignee_email).
Proof.
  unfold case_update_flow.
  stable_flow ltac:(first [ emits_leaf
                          | apply case_assign_role_flow_calm
                          | apply dispatcher_calm
                          | apply update_conversation_calm ]).
Qed.

End Calm.

(** The update flow updates: whatever the case, the statuses and the calls,
    it never creates or deletes a ticket, a group, a storage, a document
    or a conversation, and it never pages. *)
Theorem case_update_flow_never_creates (env : Env) case_id previous_case
    reporter_email assignee_email w :
  exists evs,
    trace (snd (case_update_flow env case_id previous_case reporter_email
                  assignee_email w))
    = trace w ++ evs
    /\ Forall (fun ev => upheaval ev = false) evs.
Proof.
  apply (case_update_flow_calm env (trace w)), emits_only_start.
Qed.

Section NoPush.

Variable env : Env.
Variable t0 : list Event.

Let quiet_thread (ev : Event) : Prop := thread_push ev = false.

Lemma add_or_reactivate_no_push email case_id role service_id :
  stable (emits_only quiet_thread t0)
    (case_add_or_reactivate_participant_flow env email case_id role
       service_id false).
Proof.
  unfold case_add_or_reactivate_participant_flow. stable_flow emits_leaf.
Qed.

Lemma case_create_resources_flow_no_push case_id individual_participants
    team_participants target create_resources :
  stable (emits_only quiet_thread t0)
    (case_create_resources_flow env case_id individual_participants
       team_participants target create_resources).
Proof.
  unfold case_create_resources_flow.
  stable_flow ltac:(first [ emits_leaf | apply add_or_reactivate_no_push ]).
Qed.

End NoPush.

(** Called with [add_to_conversation = False], the participant flow never
    pushes an e-mail to the thread of the conversation; so the provisioning
    flow, which adds its participants one by one in this way, never does:
    its only push is the one in bulk of [add_case_participants]. *)
Theorem no_push_without_add_to_conversation (env : Env) email case_id role
    service_id individual_participants team_participants target
    create_resources w :
  (exists evs,
     trace (snd (case_add_or_reactivate_participant_flow env email case_id
                   role service_id false w))
     = trace w ++ evs
     /\ Forall (fun ev => thread_push ev = false) evs) /\
  (exists evs,
     trace (snd (case_create_resources_flow env case_id
                   individual_participants team_participants target
                   create_resources w))
     = trace w ++ evs
     /\ Forall (fun ev => thread_push ev = false) evs).
Proof.
  split.
  - apply (add_or_reactivate_no_push env (trace w)), emits_only_start.
  - apply (case_create_resources_flow_no_push env (trace w)), emits_only_start.
Qed.

Lemma upheaval_page ev : upheaval ev = false -> page_event ev = false.
Proof. destruct ev as [R c | | |]; [by destruct c | done..]. Qed.

Section NoPage.

Variable env : Env.
Variable t0 : list Event.

Let unpaged (ev : Event) : Prop := page_event ev = false.

Ltac calm_leaf lemma :=
  apply (stable_emits_only_weaken (fun ev => upheaval ev = false));
    [ apply upheaval_page | intros ?; apply lemma ].

Lemma case_create_resources_flow_no_page case_id individual_participants
    team_participants target create_resources :
  stable (emits_only unpaged t0)
    (case_create_resources_flow env case_id individual_participants
       team_participants target create_resources).
Proof.
  unfold case_create_resources_flow.
  stable_flow ltac:(first [ emits_leaf | calm_leaf add_or_reactivate_calm ]).
Qed.

Lemma case_new_create_flow_no_page case_id target service_id
    create_resources :
  service_given service_id = false ->
  stable (emits_only unpaged t0)
    (case_new_create_flow env case_id target service_id create_resources).
Proof.
  intros Hservice. unfold case_new_create_flow. rewrite Hservice.
  cbn [negb]. cbv beta iota.
  stable_flow ltac:(first [ emits_leaf
                          | calm_leaf get_case_participants_calm
                          | apply case_create_resources_flow_no_page ]).
Qed.

Lemma case_triage_create_flow_no_page case_id :
  stable (emits_only unpaged t0) (case_triage_create_flow env case_id).
Proof.
  unfold case_triage_create_flow.
  stable_flow ltac:(first [ by apply case_new_create_flow_no_page
                          | calm_leaf case_triage_status_flow_calm ]).
Qed.

Lemma case_escalated_create_flow_no_page case_id :
  stable (emits_only unpaged t0) (case_escalated_create_flow env case_id).
Proof.
  unfold case_escalated_create_flow.
  stable_flow ltac:(first [ by apply case_new_create_flow_no_page
                          | calm_leaf case_triage_status_flow_calm
                          | calm_leaf case_escalated_status_flow_calm ]).
Qed.

Lemma case_closed_create_flow_no_page case_id :
  stable (emits_only unpaged t0) (case_closed_create_flow env case_id).
Proof.
  unfold case_closed_create_flow.
  stable_flow ltac:(first [ by apply case_new_create_flow_no_page
                          | calm_leaf case_triage_status_flow_calm
                          | calm_leaf case_closed_status_flow_calm ]).
Qed.

End NoPage.

(** The creation flow pages the oncall service only when a service is
    passed to it. Without one ([None] or 0) it never pages, whatever the
    priority and the type of the case: the branch that finds the service
    of the case type only assigns it. The triage, escalated and closed
    creation flows pass no service, and never page. *)
Theorem no_page_without_service (env : Env) case_id target service_id
    create_resources w :
  service_given service_id = false ->
  let unpaged := fun m : M unit =>
    exists evs, trace (snd (m w)) = trace w ++ evs
                /\ Forall (fun ev => page_event ev = false) evs in
  (exists evs,
     trace (snd (case_new_create_flow env case_id target service_id
                   create_resources w))
     = trace w ++ evs
     /\ Forall (fun ev => page_event ev = false) evs) /\
  unpaged (case_triage_create_flow env case_id) /\
  unpaged (case_escalated_create_flow env case_id) /\
  unpaged (case_closed_create_flow env case_id).
Proof.
  intros Hservice unpaged. subst unpaged. cbv beta. repeat split.
  - by apply (case_new_create_flow_no_page env (trace w)), emits_only_start.
  - apply (case_triage_create_flow_no_page env (trace w)), emits_only_start.
  - apply (case_escalated_create_flow_no_page env (trace w)), emits_only_start.
  - apply (case_closed_create_flow_no_page env (trace w)), emits_only_start.
Qed.

(** A case of a priority that pages, of a type with an oncall service:
    created without service, nobody is paged. *)
Lemma no_page_without_service_witness :
  let c := {| name := "case-3"; title := "outage"; description := "";
              status := CaseStatus.new; visibility := Visibility.restricted;
              triage_at := None; escalated_at := None; closed_at := None;
              project := Fixture.security;
              case_type := {| incident_type := None;
                              oncall_service := Some {| external_id := 4 |};
                              case_template_document := None |};
              case_priority := {| page_assignee := true |};
              assignee := Some Fixture.alice;
              ticket := None; groups := []; tactical_group := None;
              storage := None; case_document := None; conversation := None;
              incidents := [] |} in
  let w := Fixture.world_of (Fixture.store_of c [] Fixture.all_plugins 9%Z) in
  exists evs,
    trace (snd (case_new_create_flow Fixture.quiet 1 None None true w))
    = evs
    /\ Forall (fun ev => page_event ev = false) evs.
Proof.
  intros c w.
  exact (proj1 (no_page_without_service Fixture.quiet 1 None None true w
                  eq_refl)).
Defined.

(** ** An inactive participant of a closed case *)

Section NoReactivation.

Variable env : Env.
Variable t0 : list Event.


End NoReactivation.



(** ** The timestamps after a transition *)

Lemma case_triage_status_flow_run r w :
  case_triage_status_flow (Some r) w
  = (Ok tt,
     match triage_at (case_heap (store w) r) with
     | Some _ => w
     | None =>
         record (EvCommit r)
           (update_case r (set_triage_at (Some (now (store w)))) w)
     end).
Proof.
  unfold case_triage_status_flow. mstep.
  destruct (triage_at (case_heap (store w) r)); by mstep.
Qed.

Lemma case_closed_status_flow_run r w :
  case_closed_status_flow (Some r) w
  = (Ok tt,
     record (EvCommit r)
       (update_case r (set_closed_at (Some (now (store w)))) w)).
Proof. unfold case_closed_status_flow. by mstep. Qed.

(** A transition to a status other than escalated calls nothing and
    returns. It never unsets or changes a [triage_at] that is set and never
    touches [escalated_at]; it leaves [closed_at] alone unless the case is
    closed from another status, and then stamps it with the current time;
    and a case that leaves the new status for another one has its
    [triage_at] set. *)
Theorem dispatcher_stamps (env : Env) r current previous w :
  current <> CaseStatus.escalated ->
  let c := case_heap (store w) r in
  let run := case_status_transition_flow_dispatcher env (Some r) current
               previous w in
  let c' := case_heap (store (snd run)) r in
  fst run = Ok tt /\
  (forall t, triage_at c = Some t -> triage_at c' = Some t) /\
  escalated_at c' = escalated_at c /\
  (current = CaseStatus.closed -> previous <> CaseStatus.closed ->
   closed_at c' = Some (now (store w))) /\
  (current <> CaseStatus.closed -> closed_at c' = closed_at c) /\
  (previous = CaseStatus.new -> current <> CaseStatus.new ->
   triage_at c' <> None).
Proof.
  intros Hcurrent c run c'. subst c run c'.
  destruct current, previous; try done;
    unfold case_status_transition_flow_dispatcher;
    rewrite ?run_bind, ?case_triage_status_flow_run; cbv beta iota;
    rewrite ?case_closed_status_flow_run; cbn [fst snd];
    destruct (triage_at (case_heap (store w) r)) as [t0 |] eqn:Htriage;
    rewrite ?store_record, ?case_heap_update_case; cbn;
    rewrite ?fn_lookup_alter; cbn;
    repeat split; try done; try congruence.
Qed.

(** Closing a new case that was never triaged, with the clock at 9. *)
Lemma dispatcher_stamps_witness :
  let w := Fixture.world_of
             (Fixture.store_of Fixture.bare_case [] Fixture.all_plugins 9%Z) in
  let run := case_status_transition_flow_dispatcher Fixture.quiet (Some 1)
               CaseStatus.closed CaseStatus.new w in
  closed_at (case_heap (store (snd run)) 1) = Some 9%Z /\
  triage_at (case_heap (store (snd run)) 1) <> None.
Proof.
  intros w run.
  destruct (dispatcher_stamps Fixture.quiet 1 CaseStatus.closed
              CaseStatus.new w ltac:(discriminate))
    as (_ & _ & _ & Hclosed & _ & Htriage).
  split.
  - apply Hclosed; [reflexivity | discriminate].
  - apply Htriage; [reflexivity | discriminate].
Defined.

(** ** What holds when a flow returns *)

Lemma returns_bind {A B} (Q : B -> World -> Prop) (m : M A) (k : A -> M B) :
  (forall a, returns_with Q (k a)) -> returns_with Q (m ≫= k).
Proof.
  intros Hk w b w'. rewrite run_bind.
  destruct (m w) as [[a | e] w1]; [apply Hk | discriminate].
Qed.

Lemma run_get_cases cid w :
  get cid w = (Ok (Some cid), w) \/ get cid w = (Ok None, w).
Proof. unfold get, read. destruct (decide _); [by left | by right]. Qed.

(** One step towards the end of a flow. *)
Ltac returns_step :=
  lazymatch goal with
  | |- returns_with _ (mbind _ _) => apply returns_bind; intros ?
  | |- returns_with _ (match ?x with _ => _ end) => destruct x
  end.

(** When the creation flow returns, it returns the case it was called for,
    and the last thing it did is to commit it. *)
Theorem case_new_create_flow_returns (env : Env) cid target service_id
    create_resources w v w' :
  case_new_create_flow env cid target service_id create_resources w
  = (Ok v, w') ->
  v = Some cid /\ exists t, trace w' = t ++ [EvCommit cid].
Proof.
  unfold case_new_create_flow. rewrite run_bind.
  destruct (run_get_cases cid w) as [-> | ->]; cbv beta iota;
    revert w v w';
    match goal with
    | |- forall w v w', ?m w = (Ok v, w') -> _ =>
        change (returns_with
                  (fun v w' =>
                     v = Some cid /\ exists t, trace w' = t ++ [EvCommit cid])
                  m)
    end;
    do 8 returns_step; intros w v w'; mstep.
  - intros [= <- <-]. split; [done |]. by eexists.
  - discriminate.
Qed.

Lemma case_new_create_flow_returns_witness :
  let w := Fixture.world_of
             (Fixture.store_of Fixture.bare_case [] Fixture.all_plugins 9%Z) in
  let run := case_new_create_flow Fixture.quiet 1 None None true w in
  fst run = Ok (Some 1) /\ exists t, trace (snd run) = t ++ [EvCommit 1].
Proof.
  intros w run.
  assert (Hrun : case_new_create_flow Fixture.quiet 1 None None true w
                 = (Ok (Some 1), snd run)).
  { transitivity (fst run, snd run); [apply surjective_pairing |].
    f_equal. }
  split; [exact (f_equal fst Hrun) |].
  exact (proj2 (case_new_create_flow_returns _ _ _ _ _ _ _ _ Hrun)).
Defined.

(** When the triage creation flow returns, the case has its [triage_at]
    set. When the closed creation flow returns, the case has its
    [triage_at] set and its [closed_at] stamped with the current time, and
    the commit of that stamp is the last thing the flow did. *)
Theorem creation_flows_stamp (env : Env) cid w w' :
  let c' := case_heap (store w') cid in
  (case_triage_create_flow env cid w = (Ok tt, w') ->
   triage_at c' <> None) /\
  (case_closed_create_flow env cid w = (Ok tt, w') ->
   triage_at c' <> None /\
   closed_at c' = Some (now (store w')) /\
   exists t, trace w' = t ++ [EvCommit cid]).
Proof.
  intros c'. subst c'. split.
  - unfold case_triage_create_flow. rewrite run_bind.
    destruct (case_new_create_flow _ _ _ _ _ w) as [[v | e] w1];
      [| discriminate].
    rewrite run_bind.
    destruct (run_get_cases cid w1) as [-> | ->]; cbv beta iota.
    + rewrite case_triage_status_flow_run. intros [= <-].
      destruct (triage_at (case_heap (store w1) cid)) eqn:Htriage.
      * by rewrite Htriage.
      * by rewrite store_record, case_heap_update_case.
    + unfold case_triage_status_flow. mstep. discriminate.
  - unfold case_closed_create_flow. rewrite run_bind.
    destruct (case_new_create_flow _ _ _ _ _ w) as [[v | e] w1];
      [| discriminate].
    rewrite run_bind.
    destruct (run_get_cases cid w1) as [-> | ->]; cbv beta iota.
    + rewrite run_bind, case_triage_status_flow_run. cbv beta iota.
      rewrite case_closed_status_flow_run. intros [= <-].
      rewrite !store_record, !case_heap_update_case.
      destruct (triage_at (case_heap (store w1) cid)) eqn:Htriage;
        rewrite ?store_record, ?case_heap_update_case; cbn;
        rewrite ?Htriage; repeat split; try done; by eexists.
    + unfold case_triage_status_flow. mstep. discriminate.
Qed.

Lemma creation_flows_stamp_witness :
  let w := Fixture.world_of
             (Fixture.store_of Fixture.bare_case [] Fixture.all_plugins 9%Z) in
  let w' := snd (case_closed_create_flow Fixture.quiet 1 w) in
  triage_at (case_heap (store w') 1) <> None /\
  closed_at (case_heap (store w') 1) = Some (now (store w')).
Proof.
  intros w w'.
  assert (Hrun : case_closed_create_flow Fixture.quiet 1 w = (Ok tt, w')).
  { transitivity (fst (case_closed_create_flow Fixture.quiet 1 w), w');
      [apply surjective_pairing |].
    f_equal. }
  destruct (proj2 (creation_flows_stamp Fixture.quiet 1 w w') Hrun)
    as (Htriage & Hclosed & _).
  by split.
Defined.

(** ** The calls for the ticket *)

Section AtMost.

Variable p : Event -> bool.
Variable t0 : list Event.

Lemma emits_at_most_start k w : emits_at_most k p (trace w) w.
Proof. exists []. split; [by rewrite app_nil_r | cbn; lia]. Qed.

Lemma emits_at_most_mono k k' w :
  k <= k' -> emits_at_most k p t0 w -> emits_at_most k' p t0 w.
Proof. intros Hk (evs & Htrace & Hcount). exists evs. split; [done | lia]. Qed.

Lemma emits_at_most_record k ev w :
  p ev = false -> emits_at_most k p t0 w -> emits_at_most k p t0 (record ev w).
Proof.
  intros Hev (evs & Htrace & Hcount). exists (evs ++ [ev]). split.
  - cbn. by rewrite Htrace, app_assoc.
  - rewrite list.filter_app, length_app,
      list.filter_cons_False, list.filter_nil by congruence.
    cbn. lia.
Qed.

Lemma emits_at_most_call k (env : Env) {R} (c : Call R) w :
  p (EvCall c) = false -> emits_at_most k p t0 w ->
  emits_at_most k p t0 {| store := snd (env R c (store w));
                          trace := trace w ++ [EvCall c] |}.
Proof.
  intros Hev (evs & Htrace & Hcount). exists (evs ++ [EvCall c]). split.
  - cbn. by rewrite Htrace, app_assoc.
  - rewrite list.filter_app, length_app,
      list.filter_cons_False, list.filter_nil by congruence.
    cbn. lia.
Qed.

Lemma emits_at_most_update_case k r f w :
  emits_at_most k p t0 w -> emits_at_most k p t0 (update_case r f w).
Proof. done. Qed.

(** One more call, whatever it is. *)
Lemma steps_call k (env : Env) {R} (c : Call R) :
  steps (emits_at_most k p t0) (emits_at_most (S k) p t0) (call env c).
Proof.
  intros w (evs & Htrace & Hcount). rewrite run_call.
  exists (evs ++ [EvCall c]). split.
  - cbn. by rewrite Htrace, app_assoc.
  - rewrite list.filter_app, length_app.
    pose proof (list.length_filter (fun ev => p ev = true) [EvCall c]) as Hone.
    cbn [length] in *. lia.
Qed.

End AtMost.

(** Events that all fail [p] do not count. *)
Lemma stable_at_most_of_only {A} (P : Event -> Prop) (p : Event -> bool)
    (m : M A) :
  (forall ev, P ev -> p ev = false) ->
  (forall t0, stable (emits_only P t0) m) ->
  forall k t0, stable (emits_at_most k p t0) m.
Proof.
  intros HP Hm k t0 w (evs & Htrace & Hcount).
  destruct (Hm (trace w) w (emits_only_start P w)) as (evs' & Htrace' & Hall').
  exists (evs ++ evs'). split.
  - by rewrite Htrace', Htrace, app_assoc.
  - rewrite list.filter_app, length_app.
    assert (Hnone : filter (fun ev => p ev = true) evs' = []).
    { clear Htrace'. induction Hall' as [| ev evs' Hev _ IH]; [done |].
      rewrite list.filter_cons_False
        by (rewrite (HP _ Hev); discriminate).
      done. }
    rewrite Hnone. cbn. lia.
Qed.

Lemma steps_bind_l {A B} (J J' : World -> Prop) (m : M A) (k : A -> M B) :
  steps J J' m -> (forall a, stable J' (k a)) -> steps J J' (m ≫= k).
Proof.
  intros Hm Hk w HJ. rewrite run_bind. specialize (Hm w HJ).
  destruct (m w) as [[a | e] w']; cbn in *; [by apply Hk | done].
Qed.

Lemma steps_bind_r {A B} (J J' : World -> Prop) (m : M A) (k : A -> M B) :
  (forall w, J w -> J' w) ->
  stable J m -> (forall a, steps J J' (k a)) -> steps J J' (m ≫= k).
Proof.
  intros Hmono Hm Hk w HJ. rewrite run_bind. specialize (Hm w HJ).
  destruct (m w) as [[a | e] w']; cbn in *; [by apply Hk | by apply Hmono].
Qed.

Lemma resource_call_ticket_update ev :
  no_resource_call ev -> ticket_update ev = false.
Proof.
  unfold no_resource_call.
  destruct ev as [R c | | |]; [by destruct c | done..].
Qed.

Ltac at_most_leaf :=
  intros;
  first [ apply emits_at_most_record; [reflexivity | assumption]
        | apply emits_at_most_call; [reflexivity | assumption]
        | apply emits_at_most_update_case; assumption ].

Ltac quiet_leaf lemma :=
  apply (stable_at_most_of_only no_resource_call);
    [ apply resource_call_ticket_update | intros ?; apply lemma ].

Section TicketUpdates.

Variable env : Env.
Variable t0 : list Event.

Let at_most (k : nat) : World -> Prop := emits_at_most k ticket_update t0.

Lemma at_most_0_1 w : at_most 0 w -> at_most 1 w.
Proof. apply emits_at_most_mono. lia. Qed.

(** The provisioning flow updates the ticket at most once. *)
Lemma case_create_resources_flow_ticket_update case_id
    individual_participants team_participants target create_resources :
  steps (at_most 0) (at_most 1)
    (case_create_resources_flow env case_id individual_participants
       team_participants target create_resources).
Proof.
  destruct create_resources.
  - unfold case_create_resources_flow.
    do 2 (apply steps_bind_r;
          [apply at_most_0_1 | stable_flow at_most_leaf | intros ?]).
    cbv zeta. apply steps_bind_l.
    + change (when true ?m) with m.
      do 10 (apply steps_bind_r;
             [apply at_most_0_1 | stable_flow at_most_leaf | intros ?]).
      apply steps_call.
    + intros _.
      stable_flow ltac:(first [ at_most_leaf
                              | quiet_leaf add_or_reactivate_events ]).
  - intros w Hw. apply at_most_0_1. revert w Hw.
    quiet_leaf create_resources_flow_events.
Qed.

(** What follows the creation of the ticket in the creation flow updates
    the ticket at most once. *)
Lemma case_new_create_flow_rest_ticket_update (case : CaseRef) target
    create_resources (rest : M CaseRef) :
  stable (at_most 1) rest ->
  steps (at_most 0) (at_most 1)
    ('(individual_participants, team_participants) ←
       get_case_participants env case;
     cid ← case_id_of case;
     case_create_resources_flow env cid individual_participants
       team_participants target create_resources;;
     when (negb create_resources) (call env (update_case_ticket case));;
     rest).
Proof.
  intros Hrest.
  apply steps_bind_r;
    [apply at_most_0_1 | quiet_leaf get_case_participants_events |].
  intros [individual_participants team_participants].
  apply steps_bind_r; [apply at_most_0_1 | stable_flow at_most_leaf |].
  intros cid. destruct create_resources; cbn [negb].
  - apply steps_bind_l;
      [apply case_create_resources_flow_ticket_update | intros _].
    stable_flow ltac:(apply Hrest).
  - apply steps_bind_r;
      [apply at_most_0_1 | quiet_leaf create_resources_flow_events |].
    intros _. apply steps_bind_l; [apply steps_call | intros _; apply Hrest].
Qed.

End TicketUpdates.

Lemma resource_call_ticket_creation ev :
  no_resource_call ev -> ticket_creation ev = false.
Proof.
  unfold no_resource_call.
  destruct ev as [R c | | |]; [by destruct c | done..].
Qed.

Section TicketCreation.

Variable env : Env.
Variable t0 : list Event.

Let uncreated (ev : Event) : Prop := ticket_creation ev = false.

Ltac resource_leaf lemma :=
  apply (stable_emits_only_weaken no_resource_call);
    [ apply resource_call_ticket_creation | intros ?; apply lemma ].

Lemma case_create_resources_flow_no_ticket_creation case_id
    individual_participants team_participants target create_resources :
  stable (emits_only uncreated t0)
    (case_create_resources_flow env case_id individual_participants
       team_participants target create_resources).
Proof.
  unfold case_create_resources_flow.
  stable_flow ltac:(first [ emits_leaf
                          | resource_leaf add_or_reactivate_events ]).
Qed.

Lemma case_new_create_flow_rest_no_ticket_creation (case : CaseRef) target
    service_id create_resources :
  stable (emits_only uncreated t0)
    ('(individual_participants, team_participants) ←
       get_case_participants env case;
     cid ← case_id_of case;
     case_create_resources_flow env cid individual_participants
       team_participants target create_resources;;
     when (negb create_resources) (call env (update_case_ticket case));;
     page ← case_attr case "case_priority" (page_assignee ∘ case_priority);
     when page
       (if negb (service_given service_id) then
          svc ← case_attr case "case_type" (oncall_service ∘ case_type);
          match svc with
          | Some _ => mret tt
          | None =>
              log log_warning "Case assignee not paged. No relationship between case type and an oncall service."
          end
        else
          pid ← case_attr case "project" (project_id ∘ project);
          oncall_plugin ← get_active_instance pid plugin_oncall;
          match oncall_plugin with
          | Some _ =>
              n ← case_attr case "name" name;
              t ← case_attr case "title" title;
              d ← case_attr case "description" description;
              call env (plugin_page (default 0 service_id) n t d)
          | None =>
              log log_warning "Case assignee not paged. No plugin of type oncall enabled."
          end);;
     db_add_commit case;;
     mret case).
Proof.
  stable_flow ltac:(first
    [ emits_leaf
    | resource_leaf get_case_participants_events
    | apply case_create_resources_flow_no_ticket_creation ]).
Qed.

End TicketCreation.

(** The creation flow asks for the creation of the ticket first, and once;
    whether it is run with [create_resources] or without, it asks for the
    update of the ticket at most once. *)
Theorem case_new_create_flow_ticket_calls (env : Env) cid target service_id
    create_resources w :
  let case := if decide (cid ∈ case_rows (store w)) then Some cid else None in
  exists evs,
    trace (snd (case_new_create_flow env cid target service_id
                  create_resources w))
    = trace w ++ EvCall (create_case_ticket case) :: evs
    /\ Forall (fun ev => ticket_creation ev = false) evs
    /\ length (filter (fun ev => ticket_update ev = true) evs) <= 1.
Proof.
  intros case. unfold case_new_create_flow.
  rewrite run_bind. unfold get at 1. rewrite run_read. fold case.
  cbv beta iota. rewrite run_bind, run_call.
  set (c := create_case_ticket case).
  set (w1 := {| store := _; trace := trace w ++ [EvCall c] |}).
  destruct (fst (env _ c (store w))) as [[] | e].
  - cbv beta iota.
    match goal with
    | |- context [snd (?rest w1)] =>
        pose proof (case_new_create_flow_rest_no_ticket_creation env
                      (trace w1) case target service_id create_resources w1
                      (emits_only_start _ w1)) as (evs & Htrace & Hall);
        assert (Hcount : steps (emits_at_most 0 ticket_update (trace w1))
                           (emits_at_most 1 ticket_update (trace w1)) rest)
    end.
    { apply case_new_create_flow_rest_ticket_update.
      stable_flow at_most_leaf. }
    destruct (Hcount w1 (emits_at_most_start _ _ w1))
      as (evs' & Htrace' & Hcount').
    assert (evs' = evs) as ->.
    { eapply app_inv_head. rewrite <- Htrace'. exact Htrace. }
    exists evs. split; [| done].
    etrans; [exact Htrace |]. cbn [w1 trace]. by rewrite <- app_assoc.
  - exists []. cbn. repeat split; [constructor | lia].
Qed.

(** ** The endpoint escalation *)

(** The endpoint escalation has no guard: it stamps the case, sets it to
    escalated, links the incident the incident creation flow returns to
    whatever incidents the case has, and commits. Its last audit record,
    of the sharing of the storage, is outside the test that guards the
    sharing: for an incident without tactical group the flow raises the
    [AttributeError] of [incident.tactical_group.email] after the commit,
    and for a case without storage it records a sharing that no call
    made. *)
Theorem endpoint_escalation_last_record (env : Env) r incident_id w
    incident s1 :
  let w0 := endpoint_stamped r w in
  let s2 := link_incident r incident s1 in
  let linked :=
    [EvCall (incident_create_flow incident_id);
     EvCommit r;
     EvAudit "Dispatch Core App"
       ("The case has been linked to incident "
        +:+ incident_name (incident_heap s2 incident) +:+ " in the "
        +:+ project_name (incident_project (incident_heap s2 incident))
        +:+ " project") r] in
  r ∈ case_rows (store w) ->
  env _ (incident_create_flow incident_id) (store w0) = (Ok incident, s1) ->
  (incident_tactical_group (incident_heap s2 incident) = None ->
   case_to_incident_endpoint_escalate_flow env r incident_id w
   = (Raise (NoneAttributeError "email"),
      {| store := s2; trace := trace w0 ++ linked |})) /\
  (forall g,
     incident_tactical_group (incident_heap s2 incident) = Some g ->
     storage (case_heap s2 r) = None ->
     case_to_incident_endpoint_escalate_flow env r incident_id w
     = (Ok tt,
        {| store := s2;
           trace := trace w0 ++ linked ++
             [EvAudit "Dispatch Core App"
                ("The members of the incident's tactical group "
                 +:+ group_email g
                 +:+ " have been given permission to access the case's storage folder")
                r] |})) /\
  status (case_heap (store w0) r) = CaseStatus.escalated /\
  incidents (case_heap s2 r) = incidents (case_heap s1 r) ++ [incident].
Proof.
  intros w0 s2 linked Hrow Hflow.
  assert (Hrun : forall rest : CaseRef -> PrimaryKey -> M unit,
    (case ← get r;
     case_triage_status_flow case;;
     t ← utcnow;
     case_setattr case "escalated_at" (set_escalated_at (Some t));;
     case_setattr case "status" (set_status CaseStatus.escalated);;
     incident ← call env (incident_create_flow incident_id);
     case_setattr case "incidents"
       (fun c => set_incidents (incidents c ++ [incident]) c);;
     db_add_commit case;;
     rest case incident) w
    = rest (Some r) incident
        {| store := s2;
           trace := trace w0
                    ++ [EvCall (incident_create_flow incident_id);
                        EvCommit r] |}).
  { intros rest. rewrite run_bind, (run_get_found r w Hrow). cbv beta iota.
    rewrite run_bind. rewrite (surjective_pairing (case_triage_status_flow _ w)).
    rewrite case_triage_status_flow_run at 1. cbn [fst]. cbv beta iota.
    mstep. rewrite run_call. fold (endpoint_stamped r w). fold w0.
    rewrite Hflow. cbn [fst snd]. mstep. unfold record, update_case.
    cbn [store trace]. fold (link_incident r incident s1). fold s2.
    by rewrite <- app_assoc. }
  split; [| split; [| split]].
  - intros Hnone. unfold case_to_incident_endpoint_escalate_flow.
    rewrite Hrun. mstep. unfold record. cbn [store trace].
    destruct (storage (case_heap s2 r)); mstep; cbn [store];
      rewrite ?Hnone; mstep; cbn [store]; rewrite ?Hnone; mstep;
      unfold linked; by rewrite <- !app_assoc.
  - intros g Hgroup Hstorage.
    unfold case_to_incident_endpoint_escalate_flow.
    rewrite Hrun. mstep. unfold record. cbn [store trace].
    rewrite Hstorage. mstep. cbn [store]. rewrite Hgroup. mstep.
    unfold record, linked. cbn [store trace]. by rewrite <- !app_assoc.
  - unfold w0, endpoint_stamped. by rewrite case_heap_update_case.
  - apply link_incident_incidents.
Qed.

(** A case without storage, escalated through the endpoint to an incident
    that has a tactical group: the sharing is recorded, and no call shared
    anything. *)
Lemma endpoint_escalation_last_record_witness :
  let w := Fixture.world_of
             (Fixture.store_of Fixture.bare_case [] Fixture.all_plugins 9%Z) in
  let run := case_to_incident_endpoint_escalate_flow Fixture.quiet 1 7 w in
  fst run = Ok tt /\
  trace (snd run)
  = [EvCommit 1;
     EvCall (incident_create_flow 7);
     EvCommit 1;
     EvAudit "Dispatch Core App"
       "The case has been linked to incident incident-7 in the security project"
       1;
     EvAudit "Dispatch Core App"
       "The members of the incident's tactical group responders@example.com have been given permission to access the case's storage folder"
       1].
Proof.
  intros w run.
  pose proof (proj1 (proj2 (endpoint_escalation_last_record Fixture.quiet 1 7
                              w 7 (store (endpoint_stamped 1 w))
                              ltac:(vm_compute; reflexivity) eq_refl))
                Fixture.responders eq_refl eq_refl) as Hrun.
  split.
  - exact (f_equal fst Hrun).
  - exact (f_equal (fun x => trace (snd x)) Hrun).
Defined.

(** ** The resources the provisioning flow asks for *)

Lemma trace_grows_after {A} (m : M A) w :
  stable (emits_only (fun _ => True) (trace w)) m ->
  exists evs, trace (snd (m w)) = trace w ++ evs.
Proof.
  intros Hm. destruct (Hm w (emits_only_start _ w)) as (evs & Htrace & _).
  by exists evs.
Qed.

(** For a case without group, the first call of the provisioning flow
    asks for the tactical group. Its members are a set: an e-mail is a
    member exactly when it is the e-mail of a direct participant, of a team
    or of the assignee of the case. *)
Theorem case_create_resources_flow_group_members (env : Env) r
    individual_participants team_participants target w :
  r ∈ case_rows (store w) ->
  groups (case_heap (store w) r) = [] ->
  exists members evs,
    trace (snd (case_create_resources_flow env r individual_participants
                  team_participants target true w))
    = trace w ++ EvCall (create_group (Some r) tactical members) :: evs
    /\ forall e : string,
         e ∈ members <->
         e ∈ emails_of individual_participants
         \/ e ∈ map team_email team_participants
         \/ exists a, assignee (case_heap (store w) r) = Some a
                      /\ e = individual_email (individual a).
Proof.
  intros Hrow Hgroups. unfold case_create_resources_flow.
  rewrite run_bind, (run_get_found r w Hrow). mstep.
  rewrite Hgroups. mstep.
  match goal with
  | |- context [call env (create_group (Some r) tactical ?members)] =>
      exists members; set (c := create_group (Some r) tactical members)
  end.
  rewrite run_call.
  set (w1 := {| store := _; trace := trace w ++ [EvCall c] |}).
  assert (Hgrows : forall m : M unit,
    stable (emits_only (fun _ => True) (trace w1)) m ->
    exists evs, trace (snd (m w1)) = trace w ++ EvCall c :: evs).
  { intros m Hm. destruct (trace_grows_after m w1 Hm) as (evs & ->).
    exists evs. cbn [w1 trace]. by rewrite <- app_assoc. }
  match goal with
  | |- exists evs, ?t = _ /\ _ =>
      assert (Htrace : exists evs, t = trace w ++ EvCall c :: evs)
  end.
  { destruct (fst (env _ c (store w))) as [[] | e].
    - rewrite <- run_bind. apply Hgrows.
      apply stable_bind; [| intros _];
        [| match goal with
           | |- stable ?J (fun w' => try_except ?body ?handler w') =>
               change (stable J (try_except body handler))
           end ];
      stable_flow ltac:(first
        [ emits_leaf
        | apply (stable_emits_only_weaken no_resource_call);
            [ done | intros ?; apply add_or_reactivate_events ] ]).
    - cbv beta iota. exists []. cbn [snd w1 trace]. done. }
  destruct Htrace as (evs & Htrace). exists evs. split; [exact Htrace |].
  intros e. rewrite elem_of_list_to_set, !elem_of_app.
  destruct (assignee (case_heap (store w) r)) as [a |].
  - unfold emails_of. rewrite map_app, elem_of_app. cbn [map fst].
    rewrite list_elem_of_singleton. split.
    + intros [[Hdirect | ->] | Hteam]; eauto.
    + intros [Hdirect | [Hteam | (a0 & [= <-] & ->)]]; eauto.
  - split.
    + intros [Hdirect | Hteam]; eauto.
    + intros [Hdirect | [Hteam | (a0 & [=] & _)]]; eauto.
Qed.

Lemma case_create_resources_flow_group_members_witness :
  let w := Fixture.world_of
             (Fixture.store_of Fixture.bare_case [] Fixture.all_plugins 9%Z) in
  exists members evs,
    trace (snd (case_create_resources_flow Fixture.quiet 1
                  [({| individual_email := "bob@example.com" |}, None)]
                  [{| team_email := "soc@example.com" |}] None true w))
    = trace w ++ EvCall (create_group (Some 1) tactical members) :: evs
    /\ forall e : string,
         e ∈ members <->
         e ∈ emails_of [({| individual_email := "bob@example.com" |}, None)]
         \/ e ∈ map team_email [{| team_email := "soc@example.com" |}]
         \/ exists a, assignee (case_heap (store w) 1) = Some a
                      /\ e = individual_email (individual a).
Proof.
  intros w.
  refine (case_create_resources_flow_group_members Fixture.quiet 1 _ _ None w
            _ _).
  - vm_compute. reflexivity.
  - reflexivity.
Defined.

(** ** A conversation that cannot be created *)

(** When the creation of the conversation raises an exception that
    derives from [Exception], the provisioning flow run with
    [create_resources = False] records the failure with the message of the
    exception, logs the exception and returns: no participant is added,
    and nothing else is recorded. An exception that does not derive from
    [Exception] is not caught: it leaves the flow right after the call,
    and nothing is recorded. *)
Theorem case_create_resources_flow_conversation_failure (env : Env) r
    individual_participants team_participants target w e :
  let c := create_case_conversation (Some r) target in
  r ∈ case_rows (store w) ->
  fst (env _ c (store w)) = Raise e ->
  case_create_resources_flow env r individual_participants team_participants
    target false w
  = if exn_is_exception e
    then
      (Ok tt,
       {| store := snd (env _ c (store w));
          trace := trace w
                   ++ [EvCall c;
                       EvAudit "Dispatch Core App"
                         ("Creation of case conversation failed. Reason: "
                          +:+ exn_message e) r;
                       EvLog log_exception (exn_message e)] |})
    else
      (Raise e,
       {| store := snd (env _ c (store w));
          trace := trace w ++ [EvCall c] |}).
Proof.
  intros c Hrow Hraise. unfold case_create_resources_flow.
  rewrite run_bind, (run_get_found r w Hrow). mstep.
  fold c. rewrite run_try_except_bind, run_call, Hraise.
  destruct (exn_is_exception e); [| done]. mstep.
  unfold record. cbn [store trace]. by rewrite <- !app_assoc.
Qed.

Lemma case_create_resources_flow_conversation_failure_witness :
  let w := Fixture.world_of
             (Fixture.store_of Fixture.bare_case [] Fixture.all_plugins 9%Z) in
  let down R (c : Call R) :=
    match c with create_case_conversation _ _ => true | _ => false end in
  case_create_resources_flow (Fixture.failing down) 1 [] [] None false w
  = (Ok tt,
     {| store := store w;
        trace := [EvCall (create_case_conversation (Some 1) None);
                  EvAudit "Dispatch Core App"
                    "Creation of case conversation failed. Reason: 503 Service Unavailable"
                    1;
                  EvLog log_exception "503 Service Unavailable"] |}).
Proof.
  intros w down.
  refine (case_create_resources_flow_conversation_failure
            (Fixture.failing down) 1 [] [] None w Fixture.provider_down _ _).
  - vm_compute. reflexivity.
  - reflexivity.
Defined.

(** ** A case without assignee *)

Lemma stable_get {A} (J : World -> Prop) cid (k : CaseRef -> M A) :
  stable J (k (Some cid)) -> stable J (k None) -> stable J (get cid ≫= k).
Proof.
  intros Hfound Hmissing w HJ. rewrite run_bind. unfold get.
  rewrite run_read. destruct (decide _); [by apply Hfound | by apply Hmissing].
Qed.

Section Unassigned.

Variable env : Env.
Variable r : PrimaryKey.
Variable t0 : list Event.

(** No call assigns the case. *)
Hypothesis env_keeps :
  forall R (c : Call R) s,
    assignee (case_heap s r) = None ->
    assignee (case_heap (snd (env R c s)) r) = None.

Ltac unassigned_leaf :=
  first [ intros ? [? ?]; split;
            [ assumption | apply emits_only_record; [reflexivity | assumption] ]
        | intros ? [? ?]; split;
            [ apply env_keeps; assumption
            | apply emits_only_call; [reflexivity | assumption] ] ].

Lemma add_or_reactivate_unassigned email case_id role service_id :
  stable (unassigned r t0)
    (case_add_or_reactivate_participant_flow env email case_id role
       service_id false).
Proof.
  unfold case_add_or_reactivate_participant_flow. stable_flow unassigned_leaf.
Qed.

(** The read of the e-mail of the assignee raises, and what follows it is
    not run. *)
Lemma assignee_email_unassigned {A} (k : IndividualContact -> M A) w :
  unassigned r t0 w ->
  (a ← case_attr (Some r) "assignee" assignee;
   i ← getattr a "individual" individual;
   k i) w
  = (Raise (NoneAttributeError "individual"), w).
Proof. intros [Hnone _]. mstep. rewrite Hnone. by mstep. Qed.

Ltac unassigned_prefix :=
  stable_flow ltac:(first [ unassigned_leaf
                          | apply add_or_reactivate_unassigned ]).

Lemma case_create_resources_flow_unassigned individual_participants
    team_participants target create_resources :
  stable (unassigned r t0)
    (case_create_resources_flow env r individual_participants
       team_participants target create_resources).
Proof.
  unfold case_create_resources_flow. apply stable_get.
  - apply stable_bind; [unassigned_prefix | intros a]. cbv zeta.
    apply stable_bind; [unassigned_prefix | intros _].
    apply stable_try_except; [| intros e; unassigned_prefix].
    do 4 (apply stable_bind; [unassigned_prefix | intros ?]).
    intros w' Hw'. by rewrite assignee_email_unassigned.
  - intros w Hw. unfold case_attr. by mstep.
Qed.

(** Run with [create_resources = False] on the case, the flow does not
    reach the end of its [try]: an exception is raised there, which the
    handler records when it derives from [Exception]. *)
Lemma case_create_resources_flow_unassigned_run individual_participants
    team_participants target w :
  r ∈ case_rows (store w) ->
  unassigned r t0 w ->
  exists e w',
    case_create_resources_flow env r individual_participants
      team_participants target false w
    = (if exn_is_exception e
       then
         (Ok tt,
          record (EvLog log_exception (exn_message e))
            (record (EvAudit "Dispatch Core App"
                       ("Creation of case conversation failed. Reason: "
                        +:+ exn_message e) r) w'))
       else (Raise e, w'))
    /\ unassigned r t0 w'
    /\ (raises_exceptions_only env -> exn_is_exception e = true).
Proof.
  intros Hrow Hw. unfold case_create_resources_flow.
  rewrite run_bind, (run_get_found r w Hrow). mstep.
  rewrite (proj1 Hw). mstep.
  match goal with
  | |- context [try_except ?body ?handler w] =>
      assert (Hstable : stable (unassigned r t0) body);
      [| assert (Hraises : raises (unassigned r t0) body);
         [| assert (Hordinary : raises_exceptions_only env ->
                                ends_with ordinary body) ] ]
  end.
  - do 4 (apply stable_bind; [unassigned_prefix | intros ?]).
    intros w' Hw'. by rewrite assignee_email_unassigned.
  - do 4 (apply raises_bind; [unassigned_prefix | intros ?]).
    intros w' Hw'. rewrite assignee_email_unassigned; eauto.
  - intros Henv.
    ordinary_flow ltac:(by apply add_or_reactivate_ordinary).
  - rewrite run_try_except.
    destruct (Hraises w Hw) as [e He]. specialize (Hstable w Hw).
    assert (Hclass : raises_exceptions_only env -> exn_is_exception e = true).
    { intros Henv. by apply (Hordinary Henv w). }
    clear Hordinary Hraises.
    match goal with
    | |- context [match ?run with _ => _ end] =>
        destruct run as [[[] | e'] w']
    end; [discriminate He |].
    cbn [fst snd] in He, Hstable. injection He as ->.
    exists e, w'. split; [| done].
    destruct (exn_is_exception e); [by mstep | done].
Qed.

End Unassigned.

(** As long as no call assigns the case, the provisioning flow of a case
    without assignee never pushes the participants to the conversation in
    bulk. Run with [create_resources = False] it never reaches the end of
    its [try]: an exception is raised there. When that exception derives
    from [Exception], as it does whenever the calls raise no other
    exception,
    the flow returns, and the last thing it does is to record and log a
    failed creation of the conversation, whether the conversation was
    created or not; otherwise the exception leaves the flow. *)
Theorem case_create_resources_flow_without_assignee (env : Env) r
    individual_participants team_participants target w :
  r ∈ case_rows (store w) ->
  assignee (case_heap (store w) r) = None ->
  (forall R (c : Call R) s,
     assignee (case_heap s r) = None ->
     assignee (case_heap (snd (env R c s)) r) = None) ->
  (forall create_resources,
     exists evs,
       trace (snd (case_create_resources_flow env r individual_participants
                     team_participants target create_resources w))
       = trace w ++ evs
       /\ Forall (fun ev => bulk_push ev = false) evs) /\
  (let run := case_create_resources_flow env r individual_participants
                team_participants target false w in
   exists evs e,
     (exn_is_exception e = true ->
      fst run = Ok tt /\
      trace (snd run)
      = trace w ++ evs
        ++ [EvAudit "Dispatch Core App"
              ("Creation of case conversation failed. Reason: "
               +:+ exn_message e) r;
            EvLog log_exception (exn_message e)]) /\
     (exn_is_exception e = false ->
      fst run = Raise e /\ trace (snd run) = trace w ++ evs) /\
     (raises_exceptions_only env -> exn_is_exception e = true)).
Proof.
  intros Hrow Hnone Hkeeps.
  assert (Hw : unassigned r (trace w) w)
    by (split; [exact Hnone | apply emits_only_start]).
  split.
  - intros create_resources.
    apply (case_create_resources_flow_unassigned env r (trace w) Hkeeps
             individual_participants team_participants target
             create_resources w Hw).
  - destruct (case_create_resources_flow_unassigned_run env r (trace w) Hkeeps
                individual_participants team_participants target w Hrow Hw)
      as (e & w' & Hrun & (_ & evs & Htrace & _) & Hclass).
    cbv zeta. rewrite Hrun. exists evs, e. split; [| split].
    + intros ->. split; [done |].
      cbn [snd record trace]. by rewrite Htrace, <- !app_assoc.
    + by intros ->.
    + exact Hclass.
Qed.

Lemma case_create_resources_flow_without_assignee_witness :
  let c := {| name := "case-3"; title := "spam"; description := "";
              status := CaseStatus.new; visibility := Visibility.open;
              triage_at := None; escalated_at := None; closed_at := None;
              project := Fixture.security;
              case_type := case_type Fixture.bare_case;
              case_priority := {| page_assignee := false |};
              assignee := None;
              ticket := None; groups := []; tactical_group := None;
              storage := None; case_document := None; conversation := None;
              incidents := [] |} in
  let w := Fixture.world_of (Fixture.store_of c [] Fixture.all_plugins 9%Z) in
  let run := case_create_resources_flow Fixture.quiet 1 [] [] None false w in
  fst run = Ok tt /\
  exists evs e,
    trace (snd run)
    = trace w ++ evs
      ++ [EvAudit "Dispatch Core App"
            ("Creation of case conversation failed. Reason: "
             +:+ exn_message e) 1;
          EvLog log_exception (exn_message e)].
Proof.
  intros c w.
  destruct (proj2 (case_create_resources_flow_without_assignee Fixture.quiet 1
                     [] [] None w ltac:(vm_compute; reflexivity) eq_refl
                     (fun R call s Hnone => Hnone)))
    as (evs & e & Hcaught & _ & Hclass).
  destruct (Hcaught (Hclass (fun R call s e' Hraise =>
                               ltac:(discriminate Hraise))))
    as [Hok Htrace].
  split; [exact Hok | exists evs, e; exact Htrace].
Defined.

(** ** The members of the storage *)

(** For a case without group and without storage, the provisioning flow
    asks for the storage right after the tactical group, once that call
    has returned. The storage is shared with the tactical group the case
    has by then, and only with that group; a case still without tactical
    group shares it with the direct participants and the assignee. *)
Theorem case_create_resources_flow_storage_members (env : Env) r
    individual_participants team_participants target w :
  let c := case_heap (store w) r in
  let direct :=
    emails_of (match assignee c with
               | Some p => individual_participants ++ [(individual p, None)]
               | None => individual_participants
               end) in
  let group :=
    create_group (Some r) tactical
      (list_to_set (direct ++ map team_email team_participants)) in
  let s1 := snd (env _ group (store w)) in
  r ∈ case_rows (store w) ->
  groups c = [] ->
  fst (env _ group (store w)) = Ok tt ->
  storage (case_heap s1 r) = None ->
  exists evs,
    trace (snd (case_create_resources_flow env r individual_participants
                  team_participants target true w))
    = trace w
      ++ EvCall group
      :: EvCall (create_storage (Some r)
                   match tactical_group (case_heap s1 r) with
                   | Some g => [group_email g]
                   | None => direct
                   end)
      :: evs.
Proof.
  intros c direct group s1 Hrow Hgroups Hgroup Hstorage.
  unfold case_create_resources_flow.
  rewrite run_bind, (run_get_found r w Hrow). mstep.
  fold c. rewrite Hgroups. mstep.
  fold direct. fold group. rewrite run_call, Hgroup. fold s1. mstep.
  cbn [store]. rewrite Hstorage. mstep.
  set (members := match tactical_group (case_heap s1 r) with
                  | Some g => [group_email g]
                  | None => direct
                  end).
  rewrite run_call. cbn [store trace].
  set (share := create_storage (Some r) members).
  set (w2 := {| store := _;
                trace := (trace w ++ [EvCall group]) ++ [EvCall share] |}).
  assert (Hgrows : forall m : M unit,
    stable (emits_only (fun _ => True) (trace w2)) m ->
    exists evs,
      trace (snd (m w2)) = trace w ++ EvCall group :: EvCall share :: evs).
  { intros m Hm. destruct (trace_grows_after m w2 Hm) as (evs & ->).
    exists evs. cbn [w2 trace]. by rewrite <- !app_assoc. }
  destruct (fst (env _ share s1)) as [[] | e].
  - rewrite <- run_bind. apply Hgrows.
    apply stable_bind; [| intros _];
      [| match goal with
         | |- stable ?J (fun w' => try_except ?body ?handler w') =>
             change (stable J (try_except body handler))
         end ];
    stable_flow ltac:(first
      [ emits_leaf
      | apply (stable_emits_only_weaken no_resource_call);
          [ done | intros ?; apply add_or_reactivate_events ] ]).
  - cbv beta iota. exists []. cbn [snd w2 trace]. by rewrite <- !app_assoc.
Qed.

Lemma case_create_resources_flow_storage_members_witness :
  let w := Fixture.world_of
             (Fixture.store_of Fixture.bare_case [] Fixture.all_plugins 9%Z) in
  exists evs,
    trace (snd (case_create_resources_flow Fixture.quiet 1
                  [({| individual_email := "bob@example.com" |}, None)] []
                  None true w))
    = trace w
      ++ EvCall (create_group (Some 1) tactical
                   (list_to_set ["bob@example.com"; "alice@example.com"]))
      :: EvCall (create_storage (Some 1)
                   ["bob@example.com"; "alice@example.com"])
      :: evs.
Proof.
  intros w.
  refine (case_create_resources_flow_storage_members Fixture.quiet 1
            [({| individual_email := "bob@example.com" |}, None)] [] None w
            _ _ _ _).
  - vm_compute. reflexivity.
  - reflexivity.
  - reflexivity.
  - reflexivity.
Defined.

(** * The enumerations *)

(** No two members of [Visibility] stand for the same value, nor do two
    members of [SearchTypes]: none is an alias of another, and the lookup
    of a member by its value gives the member back. *)
Theorem enum_of_value_round_trip :
  (forall v,
     enum_of_value visibility_value visibility_members (visibility_value v)
     = Some v) /\
  (forall m,
     enum_of_value search_types_value search_types_members
       (search_types_value m)
     = Some m).
Proof. split; intros []; reflexivity. Qed.
